(** * doc-translator: the batch translator and the format reassemblers

    A shallow embedding of [src/lib/translator.ts], of the document
    processor ([translateDocx], [translateMarkdown], [translatePlainFile],
    [translatePdfPages]), of the document parser ([parseDocument],
    [getFileType], [parseDocx], [parsePdf]) and of [downloadFile] of the
    home page, followed by the properties of the specification that are
    settled on them. The user store ([authService]), the upload check
    ([processFiles]) and the settings and the dispatch of the home page
    ([handleModelChange], the loop body of [handleProcess]) are embedded
    too, with further properties of all this code at the end.

    Conventions of the embedding.
    - A JavaScript string is a [string]: one [ascii] per code unit, so the
      model covers the strings whose code units are below 256.
    - Asynchronous code runs on one thread and every [await] is sequenced,
      so a [Promise<A>] is a computation [M A] that threads the state of the
      outside world and returns the events it produced, in order.
    - A callback is a function into [M unit]: it returns normally, may emit
      events and may change the outside world.
    - [throw] is the result [Throw message].
    - The text of a log message is kept symbolic: one constructor of
      [message] per template of the source, with the interpolated values as
      arguments. *)

From stdpp Require Import base option list strings gmap sorting.
From Stdlib Require Import ZArith Ascii.



(** ** JavaScript strings *)

Module Js.

Definition newline : ascii := "010"%char.

(** Truthiness of a string: only the empty string is falsy. *)
Definition truthy (s : string) : bool :=
  match s with
  | EmptyString => false
  | String _ _ => true
  end.

(** [a || b] on strings. *)
Definition or_else (a b : string) : string := if truthy a then a else b.

(** [a || b] where [a] may be [undefined]. *)
Definition or_default (a : option string) (b : string) : string :=
  match a with
  | Some s => or_else s b
  | None => b
  end.

(** WhiteSpace and LineTerminator code units below 256: TAB, LF, VT, FF,
    CR, SP and NBSP. *)
Definition is_white_space (c : ascii) : bool :=
  match nat_of_ascii c with
  | 9 | 10 | 11 | 12 | 13 | 32 | 160 => true
  | _ => false
  end.

Fixpoint trimStart (s : string) : string :=
  match s with
  | String c s' => if is_white_space c then trimStart s' else s
  | EmptyString => EmptyString
  end.

(** [trimEnd] keeps a character when it is not white space or when
    something is left after it. *)
Fixpoint trimEnd (s : string) : string :=
  match s with
  | EmptyString => EmptyString
  | String c s' =>
      match trimEnd s' with
      | EmptyString => if is_white_space c then EmptyString else String c EmptyString
      | rest => String c rest
      end
  end.

Definition trim (s : string) : string := trimEnd (trimStart s).

Fixpoint all_white_space (s : string) : bool :=
  match s with
  | EmptyString => true
  | String c s' => is_white_space c && all_white_space s'
  end.

(** [s.substring(0, n)]. *)
Definition substring0 (n : nat) (s : string) : string := String.substring 0 n s.

Fixpoint map_chars (f : ascii -> ascii) (s : string) : string :=
  match s with
  | EmptyString => EmptyString
  | String c s' => String (f c) (map_chars f s')
  end.

(** [s.replace(/\n/g, ' ')]. *)
Definition newlines_to_spaces (s : string) : string :=
  map_chars (fun c => if Ascii.eqb c newline then " "%char else c) s.

(** [toLowerCase] on the code units below 256: A-Z and the accented
    capitals 0xC0-0xDE (0xD7, the multiplication sign, apart). *)
Definition lower_char (c : ascii) : ascii :=
  let n := nat_of_ascii c in
  if (65 <=? n) && (n <=? 90) then ascii_of_nat (n + 32)
  else if (192 <=? n) && (n <=? 222) && negb (n =? 215) then ascii_of_nat (n + 32)
  else c.

Definition toLowerCase (s : string) : string := map_chars lower_char s.

(** [s.split(sep)] for a separator of one character: never empty. *)
Fixpoint split_char (sep : ascii) (s : string) : list string :=
  match s with
  | EmptyString => [EmptyString]
  | String c s' =>
      if Ascii.eqb c sep then EmptyString :: split_char sep s'
      else
        match split_char sep s' with
        | seg :: segs => String c seg :: segs
        | [] => [String c EmptyString]
        end
  end.

(** [a.pop()] read as a value: the last element, [undefined] on []. *)
Definition pop (l : list string) : option string := last l.

(** [s.replace(pattern, replacement)] with a string pattern: the first
    occurrence only; [s] itself when there is none. *)
Fixpoint replace_first (pattern replacement s : string) : string :=
  if String.prefix pattern s
  then replacement +:+ String.substring (String.length pattern) (String.length s) s
  else
    match s with
    | EmptyString => EmptyString
    | String c s' => String c (replace_first pattern replacement s')
    end.

(** [l.join(sep)]. *)
Fixpoint join (sep : string) (l : list string) : string :=
  match l with
  | [] => EmptyString
  | [x] => x
  | x :: rest => x +:+ sep +:+ join sep rest
  end.

(** [s.repeat(n)]. *)
Fixpoint repeat (s : string) (n : nat) : string :=
  match n with
  | O => EmptyString
  | S n' => s +:+ repeat s n'
  end.

(** [s.split(/\n\n+/)]. The split algorithm scans for the leftmost match
    of the pattern; the pattern matches a newline followed by the longest
    run of one or more newlines. [seg] is the text since the end of the
    previous match; [in_match] tells that the scan is inside the greedy
    [\n+] tail of a match. The pattern never matches the empty string, so
    the empty input gives one empty segment. *)
Fixpoint split_blank_lines_from (seg : string) (in_match : bool) (s : string)
  : list string :=
  match s with
  | EmptyString => [seg]
  | String c s' =>
      if in_match then
        if Ascii.eqb c newline then split_blank_lines_from seg true s'
        else split_blank_lines_from (String c EmptyString) false s'
      else
        match s' with
        | String c' s'' =>
            if Ascii.eqb c newline && Ascii.eqb c' newline
            then seg :: split_blank_lines_from EmptyString true s''
            else split_blank_lines_from (seg +:+ String c EmptyString) false s'
        | EmptyString => [seg +:+ String c EmptyString]
        end
  end.

Definition split_blank_lines (s : string) : list string :=
  split_blank_lines_from EmptyString false s.

(** A run of [k] newlines. *)
Fixpoint newlines (k : nat) : string :=
  match k with
  | O => EmptyString
  | S k' => String newline (newlines k')
  end.

(** The text made of the paragraph [p] and of the paragraphs of [rest],
    each after a run of newlines: [weave p [(k1, p1); (k2, p2)]] is [p],
    [k1 + 2] newlines, [p1], [k2 + 2] newlines, [p2]. *)
Fixpoint weave (p : string) (rest : list (nat * string)) : string :=
  match rest with
  | [] => p
  | (k, q) :: rest' => p +:+ newlines (k + 2) +:+ weave q rest'
  end.

(** No two newlines in a row, and no newline at the end. *)
Fixpoint no_blank_line (s : string) : bool :=
  match s with
  | EmptyString => true
  | String c s' =>
      match s' with
      | EmptyString => negb (Ascii.eqb c newline)
      | String c' _ => negb (Ascii.eqb c newline && Ascii.eqb c' newline) && no_blank_line s'
      end
  end.

(** A paragraph: not empty, no newline at either end, no two newlines in a
    row. *)
Definition paragraph (s : string) : bool :=
  match s with
  | EmptyString => false
  | String c _ => negb (Ascii.eqb c newline) && no_blank_line s
  end.

End Js.

(** ** The outside world, events and computations *)

(** A thrown [Error] carries its message. *)
Inductive result (A : Type) : Type :=
  | Ok (value : A)
  | Throw (message : string).
Arguments Ok {A} value.
Arguments Throw {A} message.

Inductive Lang : Type := zh | en | auto.

Record TranslationConfig : Type := {
  apiKey : string;
  baseUrl : option string;
  model : option string;
  targetLang : Lang
}.

Inductive Role : Type := system | user.

(** The request of one chat completion, with the settings of the client
    that sends it. *)
Record Request : Type := {
  req_apiKey : string;
  req_baseURL : string;
  req_model : string;
  req_messages : list (Role * string);
  req_stream : bool
}.

(** What the service answers to one request: the stream of chunks, each
    with the content [chunk.choices[0]?.delta?.content] it carries if any,
    and how the stream ends: normally, or with an error whose [message] is
    given (the empty string when the error has none). An error of the
    request itself is a failing stream without chunks. *)
Record Reply : Type := {
  chunks : list (option string);
  failure : option string
}.

Inductive LogType : Type := info | success | error | warning.

(** The templates of the log messages. *)
Inductive message : Type :=
  | MsgBatchStart (part total : nat) (previewText : string)
  | MsgBatchDone (part total : nat)
  | MsgBatchFailed (part total : nat) (reason : string)
  | MsgDocxStart
  | MsgDocxParsed (total : nat)
  | MsgDocxNothing
  | MsgDocxTranslated
  | MsgDocxDone
  | MsgMarkdownStart
  | MsgMarkdownParsed (paragraphs : nat)
  | MsgMarkdownDone
  | MsgPlainStart
  | MsgPdfStart (pages : nat)
  | MsgPdfTranslated.

(** The texts that come before the error on the console. *)
Inductive console_label : Type :=
  | TranslationError
  | FailedChunk (i : nat).

(** What a run does that can be seen from outside. [RemoteCall] and
    [ConsoleError] are produced by the code itself; the others are what the
    recording callbacks below leave when they are called. *)
Inductive Event : Type :=
  | RemoteCall (request : Request)
  | ConsoleError (label : console_label) (reason : string)
  | Partial (text : string)
  | Log (msg : message) (type : LogType) (duration : option Z)
  | BatchProgress (completed total : nat)
  | Percent (percent : Z).

(** The translation service and the clock. [Oracle] is the state of the
    outside world; [create] sends a request and receives the whole answer;
    [date_now] is [Date.now()]. *)
Class Service : Type := {
  Oracle : Type;
  create : Request -> Oracle -> Reply * Oracle;
  date_now : Oracle -> Z * Oracle
}.

Section Computations.

Context `{Service}.

Definition M (A : Type) : Type := Oracle -> A * list Event * Oracle.

Definition ret {A} (a : A) : M A := fun o => (a, [], o).

Definition bind {A B} (m : M A) (f : A -> M B) : M B :=
  fun o =>
    let '(a, t1, o1) := m o in
    let '(b, t2, o2) := f a o1 in
    (b, t1 ++ t2, o2).

Definition emit (e : Event) : M unit := fun o => (tt, [e], o).

(** [f?.(x)]: the call of a callback that may be absent. *)
Definition call_opt {A} (f : option (A -> M unit)) (x : A) : M unit :=
  match f with
  | Some g => g x
  | None => ret tt
  end.

Definition remote (request : Request) : M Reply :=
  fun o => let '(r, o') := create request o in (r, [RemoteCall request], o').

Definition now : M Z := fun o => let '(t, o') := date_now o in (t, [], o').

Definition value_of {A} (r : A * list Event * Oracle) : A := r.1.1.
Definition trace_of {A} (r : A * list Event * Oracle) : list Event := r.1.2.
Definition oracle_of {A} (r : A * list Event * Oracle) : Oracle := r.2.

End Computations.

Notation "x <- m ;; k" := (bind m (fun x => k))
  (at level 100, m at next level, right associativity).
Notation "m ;;; k" := (bind m (fun _ => k))
  (at level 100, right associativity).

(** ** src/lib/translator.ts *)

Definition SYSTEM_PROMPT : string :=
  Js.join (String Js.newline EmptyString)
    [ "You are a professional translator. ";
      "Translate the following text content directly, keeping the original meaning and tone.";
      "Do not output any explanation or extra text.";
      "If the text contains markdown formatting, preserve it.";
      "If the text contains XML tags (like in DOCX), preserve the tags and only translate the text content within valid text nodes." ].

Definition languagePrompt (config : TranslationConfig) : string :=
  match targetLang config with
  | auto => "Detect the source language. If it is Chinese, translate to English. If it is English, translate to Chinese."
  | zh => "Translate to " +:+ "Chinese (Simplified)" +:+ "."
  | en => "Translate to " +:+ "English" +:+ "."
  end.

Definition completion_request (text : string) (config : TranslationConfig) : Request :=
  {| req_apiKey := apiKey config;
     req_baseURL := Js.or_default (baseUrl config) "https://api.openai.com/v1";
     req_model := Js.or_default (model config) "gpt-4o-mini";
     req_messages :=
       [ (system, SYSTEM_PROMPT +:+ String Js.newline EmptyString +:+ languagePrompt config);
         (user, text) ];
     req_stream := true |}.

Section Translator.

Context `{Service}.

(** The [for await] loop of [translateText]: [result] grows by every
    non-empty content, and [onProgress] sees it after each growth. *)
Fixpoint consume_stream (onProgress : option (string -> M unit))
    (stream : list (option string)) (result : string) : M string :=
  match stream with
  | [] => ret result
  | chunk :: stream' =>
      let content := Js.or_default chunk "" in
      if Js.truthy content then
        let result := result +:+ content in
        call_opt onProgress result ;;;
        consume_stream onProgress stream' result
      else consume_stream onProgress stream' result
  end.

Definition translateText (text : string) (config : TranslationConfig)
    (onProgress : option (string -> M unit)) : M (result string) :=
  if negb (Js.truthy text) || negb (Js.truthy (Js.trim text)) then ret (Ok text)
  else
    response <- remote (completion_request text config) ;;
    result <- consume_stream onProgress (chunks response) "" ;;
    match failure response with
    | None => ret (Ok result)
    | Some error_message =>
        emit (ConsoleError TranslationError error_message) ;;;
        ret (Throw (Js.or_else error_message "Translation failed"))
    end.

Definition previewText (text : string) : string :=
  Js.newlines_to_spaces (Js.substring0 30 text)
  +:+ (if 30 <? String.length text then "..." else "").

Definition LogCallback : Type := message * LogType * option Z -> M unit.
Definition BatchProgressCallback : Type := nat * nat -> M unit.

(** The part of the loop body inside [try], up to the answer of
    [translateText]: the start time and the outcome of the call. *)
Definition attempt (onLog : option LogCallback) (config : TranslationConfig)
    (total i : nat) (text : string) : M (Z * result string) :=
  startTime <- now ;;
  call_opt onLog (MsgBatchStart (i + 1) total (previewText text), info, None) ;;;
  outcome <- translateText text config None ;;
  ret (startTime, outcome).

(** The rest of the loop body: the end of the [try] block after a
    translation, or the [catch] block. It returns the grown [results]. *)
Definition settle (onBatchProgress : option BatchProgressCallback)
    (onLog : option LogCallback) (total i : nat) (text : string)
    (results : list string) (attempted : Z * result string) : M (list string) :=
  let '(startTime, outcome) := attempted in
  match outcome with
  | Ok translated =>
      t <- now ;;
      let duration := (t - startTime)%Z in
      let results := results ++ [translated] in
      call_opt onLog (MsgBatchDone (i + 1) total, success, Some duration) ;;;
      call_opt onBatchProgress (i + 1, total) ;;;
      ret results
  | Throw e_message =>
      t <- now ;;
      let duration := (t - startTime)%Z in
      emit (ConsoleError (FailedChunk i) e_message) ;;;
      call_opt onLog (MsgBatchFailed (i + 1) total e_message, error, Some duration) ;;;
      ret (results ++ [text])
  end.

(** The [for] loop of [translateBatch] from index [i] on: [rest] is
    [texts] from [i], [total] is [texts.length]. *)
Fixpoint translateBatch_from (config : TranslationConfig)
    (onBatchProgress : option BatchProgressCallback) (onLog : option LogCallback)
    (total i : nat) (rest : list string) (results : list string) : M (list string) :=
  match rest with
  | [] => ret results
  | text :: rest' =>
      attempted <- attempt onLog config total i text ;;
      results <- settle onBatchProgress onLog total i text results attempted ;;
      translateBatch_from config onBatchProgress onLog total (S i) rest' results
  end.

Definition translateBatch (texts : list string) (config : TranslationConfig)
    (onBatchProgress : option BatchProgressCallback) (onLog : option LogCallback)
    : M (list string) :=
  translateBatch_from config onBatchProgress onLog (length texts) 0 texts [].

(** One turn of the loop: its body. *)
Definition turn (config : TranslationConfig)
    (onBatchProgress : option BatchProgressCallback) (onLog : option LogCallback)
    (total i : nat) (text : string) (results : list string) : M (list string) :=
  bind (attempt onLog config total i text)
       (settle onBatchProgress onLog total i text results).

(** What the loop puts at the position of a chunk. *)
Definition chunk_result (text : string) (outcome : result string) : string :=
  match outcome with
  | Ok translated => translated
  | Throw _ => text
  end.

Definition succeeded (outcome : option (result string)) : bool :=
  match outcome with
  | Some (Ok _) => true
  | _ => false
  end.

(** The run of the loop over the chunks before position [i], and the
    outcome of the call of [translateText] for the chunk at position [i],
    made in the world that this run leaves. *)
Definition run_before (config : TranslationConfig)
    (onBatchProgress : option BatchProgressCallback) (onLog : option LogCallback)
    (texts : list string) (o : Oracle) (i : nat) : list string * list Event * Oracle :=
  translateBatch_from config onBatchProgress onLog (length texts) 0 (take i texts) [] o.

Definition outcome_at (config : TranslationConfig)
    (onBatchProgress : option BatchProgressCallback) (onLog : option LogCallback)
    (texts : list string) (o : Oracle) (i : nat) : option (result string) :=
  (fun text =>
     (value_of (attempt onLog config (length texts) i text
                  (oracle_of (run_before config onBatchProgress onLog texts o i)))).2)
  <$> texts !! i.

(** The calls of the recording progress callback in a trace. *)
Definition progress_calls (trace : list Event) : list (nat * nat) :=
  omap (fun e => match e with
                 | BatchProgress completed total => Some (completed, total)
                 | _ => None
                 end) trace.

Definition remote_calls (trace : list Event) : list Request :=
  omap (fun e => match e with RemoteCall r => Some r | _ => None end) trace.

(** The callbacks that record their calls. *)
Definition record_log : LogCallback :=
  fun '(msg, type, duration) => emit (Log msg type duration).
Definition record_batch_progress : BatchProgressCallback :=
  fun '(completed, total) => emit (BatchProgress completed total).
Definition record_partial : string -> M unit := fun text => emit (Partial text).
Definition record_percent : Z -> M unit := fun percent => emit (Percent percent).

(** No logger, or the recording one. *)
Definition quiet_logger (onLog : option LogCallback) : Prop :=
  onLog = None \/ onLog = Some record_log.

End Translator.

(** *** Services for the examples *)

Definition user_text (request : Request) : string :=
  match req_messages request with
  | [_; (user, t)] => t
  | _ => ""
  end.

(** A translation stub: every request is answered by [f] of the text to
    translate, in one chunk. The oracle is the clock, which [Date.now()]
    advances. *)
Definition stub_service (f : string -> string) : Service :=
  {| Oracle := Z;
     create := fun request t =>
       ({| chunks := [Some (f (user_text request))]; failure := None |}, t);
     date_now := fun t => (t, (t + 1)%Z) |}.

(** A scripted service: the oracle is the list of the answers to come, and
    a request after the last one fails. *)
Definition scripted_service : Service :=
  {| Oracle := list Reply;
     create := fun _ script =>
       match script with
       | reply :: script' => (reply, script')
       | [] => ({| chunks := []; failure := Some "no reply" |}, [])
       end;
     date_now := fun script => (0%Z, script) |}.

(** What a chunk becomes with the stub [f]: blank text is not sent. *)
Definition stub_result (f : string -> string) (text : string) : string :=
  if Js.all_white_space text then text else f text.

Definition answer (s : string) : Reply := {| chunks := [Some s]; failure := None |}.
Definition refusal (reason : string) : Reply := {| chunks := []; failure := Some reason |}.

(** Three chunks, and a script that translates the first and the third
    and refuses the second. *)
Definition three_chunks : list string := ["one"; "two"; "three"].
Definition second_refused : list Reply :=
  [answer "un"; refusal "quota"; answer "trois"].

Definition upper_char (c : ascii) : ascii :=
  let n := nat_of_ascii c in
  if (97 <=? n) && (n <=? 122) then ascii_of_nat (n - 32) else c.

(** The stub that uppercases the letters a-z. *)
Definition uppercase : string -> string := Js.map_chars upper_char.

Definition sample_config : TranslationConfig :=
  {| apiKey := "sk-test"; baseUrl := None; model := None; targetLang := auto |}.

Definition nl : string := String Js.newline EmptyString.

(** The Markdown text "A\n\nB\n\n\nC" and its normal form "A\n\nB\n\nC". *)
Definition sample_markdown : string :=
  "A" +:+ nl +:+ nl +:+ "B" +:+ nl +:+ nl +:+ nl +:+ "C".
Definition sample_markdown_normal : string :=
  "A" +:+ nl +:+ nl +:+ "B" +:+ nl +:+ nl +:+ "C".

(** The line between two pages of a translated PDF. *)
Definition page_break_line : string :=
  "-------------------- Page Break --------------------".

(** ** The document processor *)

(** *** The XML document of a DOCX file

    The part of the DOM that the processor looks at: [<w:p>] elements,
    [<w:t>] elements and everything else. A [<w:t>] element holds character
    data only, as in WordprocessingML, and [WT text] is such an element with
    its [textContent]. [Other] stands for a node of any other kind with its
    children: an element of another name, or a node without children
    (character data outside [<w:t>], a comment). Paragraphs may be nested
    (a text box inside a paragraph holds paragraphs of its own). *)
#[warnings="-register-all"]
Inductive xml : Type :=
  | WP (children : list xml)
  | WT (text : string)
  | Other (children : list xml).

(** A node is identified by its path from the root: the positions of the
    children to follow. *)
Definition path : Type := list nat.

Definition is_wp (n : xml) : bool := match n with WP _ => true | _ => false end.
Definition is_wt (n : xml) : bool := match n with WT _ => true | _ => false end.

Definition children_of (n : xml) : list xml :=
  match n with
  | WP ks | Other ks => ks
  | WT _ => []
  end.

Fixpoint node_at (n : xml) (p : path) : option xml :=
  match p with
  | [] => Some n
  | i :: p' =>
      match children_of n !! i with
      | Some k => node_at k p'
      | None => None
      end
  end.

(** The descendants of [n] that [sel] selects, in document order, by their
    paths from [n]; [n] itself is not one of them. This is
    [n.getElementsByTagName(tag)] for an element [n]. *)
Fixpoint descendants (sel : xml -> bool) (n : xml) {struct n} : list path :=
  let fix through (i : nat) (ks : list xml) {struct ks} : list path :=
    match ks with
    | [] => []
    | k :: ks' =>
        (if sel k then [[i]] else [])
        ++ (cons i <$> descendants sel k)
        ++ through (S i) ks'
    end in
  match n with
  | WT _ => []
  | WP ks | Other ks => through 0 ks
  end.

(** [xmlDoc.getElementsByTagName(tag)] on the document: its root element
    counts too. *)
Definition document_elements (sel : xml -> bool) (doc : xml) : list path :=
  (if sel doc then [[]] else []) ++ descendants sel doc.

(** [p.getElementsByTagName(tag)] for the element at path [p] of [doc],
    by paths from the root. *)
Definition elements_under (sel : xml -> bool) (doc : xml) (p : path) : list path :=
  match node_at doc p with
  | Some n => app p <$> descendants sel n
  | None => []
  end.

(** [node.textContent] of the [<w:t>] element at [p]. *)
Definition textContent (doc : xml) (p : path) : string :=
  match node_at doc p with
  | Some (WT text) => text
  | _ => ""
  end.

(** [node.textContent = s] for the [<w:t>] element at [p]. *)
Fixpoint set_textContent (n : xml) (p : path) (s : string) {struct p} : xml :=
  match p with
  | [] => match n with WT _ => WT s | _ => n end
  | i :: p' =>
      let update ks :=
        match ks !! i with
        | Some k => <[i := set_textContent k p' s]> ks
        | None => ks
        end in
      match n with
      | WP ks => WP (update ks)
      | Other ks => Other (update ks)
      | WT _ => n
      end
  end.

(** The loop of [descendants] over the children, on its own. *)
Fixpoint descendants_from (sel : xml -> bool) (i : nat) (ks : list xml) : list path :=
  match ks with
  | [] => []
  | k :: ks' =>
      (if sel k then [[i]] else [])
      ++ (cons i <$> descendants sel k)
      ++ descendants_from sel (S i) ks'
  end.

(** The shape of a document: the tree without the character data. *)
Fixpoint shape (n : xml) : xml :=
  match n with
  | WP ks => WP (shape <$> ks)
  | WT _ => WT ""
  | Other ks => Other (shape <$> ks)
  end.

(** The order in which a pass over the document meets the [<w:t>] nodes:
    the paragraphs in document order and, for each, the [<w:t>] nodes under
    it in document order. A node under nested paragraphs is met once for
    each of them. *)
Definition visit_order (doc : xml) : list path :=
  document_elements is_wp doc ≫= elements_under is_wt doc.

(** A [<w:t>] node is translatable when its text is not blank. *)
Definition translatable (doc : xml) (node : path) : bool :=
  0 <? String.length (Js.trim (textContent doc node)).

(** The visits of translatable nodes, in order. *)
Definition marked_visits (doc : xml) : list path :=
  filter (fun node => translatable doc node = true) (visit_order doc).

(** Writing a translation into a node, unless it is empty. *)
Definition assign (doc : xml) (a : path * string) : xml :=
  if Js.truthy a.2 then set_textContent doc a.1 a.2 else doc.

(** A document for the examples: a body with two paragraphs; the first has
    a blank run between two runs of text, the second holds a text box with
    a paragraph of its own. *)
Definition sample_document : xml :=
  Other [ Other [ WP [ Other [WT "Hello"]; Other [WT "  "]; Other [WT "world"] ];
                  WP [ Other [ WT "Outer";
                               Other [ WP [ Other [WT "boxed"] ] ] ] ] ] ].

(** An element of [textsToTranslate]. *)
Module TextItem.
Record t : Type := { index : Z; text : string }.
End TextItem.

(** The item that the first pass pushes for a node. *)
Definition item_of (doc : xml) (node : path) : TextItem.t :=
  {| TextItem.index := (-1)%Z; TextItem.text := textContent doc node |}.

(** The live document during [translateDocx]: the tree, and the nodes that
    carry the property [_pendingTranslation]. *)
Definition Pending : Type := gset path.

Inductive Blob : Type :=
  | ZipBlob (archive : gmap string string)
  | TextBlob (content : string) (mime : string).

(** The browser: [DOMParser], [XMLSerializer] and the arithmetic of
    [Math.round((completed / total) * 100)] on doubles. *)
Class Browser : Type := {
  parseFromString : string -> xml;
  serializeToString : xml -> string;
  round_percent : nat -> nat -> Z
}.

(** A serializer for the examples: every element other than [<w:p>] and
    [<w:t>] is written as [<x>]. *)
Fixpoint render (n : xml) : string :=
  let fix render_all (ks : list xml) : string :=
    match ks with
    | [] => ""
    | k :: ks' => render k +:+ render_all ks'
    end in
  match n with
  | WP ks => "<w:p>" +:+ render_all ks +:+ "</w:p>"
  | WT text => "<w:t>" +:+ text +:+ "</w:t>"
  | Other ks => "<x>" +:+ render_all ks +:+ "</x>"
  end.

(** A browser for the examples: whatever the text, the parser answers with
    the sample document. *)
Definition sample_browser : Browser :=
  {| parseFromString := fun _ => sample_document;
     serializeToString := render;
     round_percent := fun completed total => Z.of_nat (completed * 100 / total) |}.

Section Processor.

Context `{Service} `{Browser}.

(** The body of the inner loop of the first pass, for one [<w:t>] node. *)
Definition extract_node (doc : xml)
    (st : Pending * list TextItem.t) (node : path) : Pending * list TextItem.t :=
  let '(pending, textsToTranslate) := st in
  let text := Js.or_else (textContent doc node) "" in
  if 0 <? String.length (Js.trim text)
  then ({[ node ]} ∪ pending,
        textsToTranslate ++ [ {| TextItem.index := (-1)%Z; TextItem.text := text |} ])
  else st.

(** The first pass: [paragraphs.forEach] over the [<w:t>] nodes of each
    paragraph. *)
Definition extract_paragraph (doc : xml)
    (st : Pending * list TextItem.t) (p : path) : Pending * list TextItem.t :=
  foldl (extract_node doc) st (elements_under is_wt doc p).

Definition extract (doc : xml) (paragraphs : list path) : Pending * list TextItem.t :=
  foldl (extract_paragraph doc) (∅, []) paragraphs.

(** The body of the inner loop of the write-back pass. *)
Definition write_node (pending : Pending) (translatedTexts : list string)
    (st : xml * nat) (node : path) : xml * nat :=
  let '(doc, tIndex) := st in
  if bool_decide (node ∈ pending) then
    let doc :=
      match translatedTexts !! tIndex with
      | Some s => if Js.truthy s then set_textContent doc node s else doc
      | None => doc
      end in
    (doc, tIndex + 1)
  else st.

(** The inner loop of the write-back pass, from index [i] on. [textNodes]
    is a live collection: its length and its element at [i] are read from
    the document as it is at each turn. [fuel] bounds the number of turns. *)
Fixpoint write_nodes (fuel : nat) (pending : Pending) (translatedTexts : list string)
    (p : path) (i : nat) (st : xml * nat) : xml * nat :=
  match fuel with
  | O => st
  | S fuel' =>
      match elements_under is_wt st.1 p !! i with
      | Some node =>
          write_nodes fuel' pending translatedTexts p (S i)
            (write_node pending translatedTexts st node)
      | None => st
      end
  end.

(** The write-back pass for one paragraph. The collection has no more
    turns to offer than its length when the loop starts, because writing a
    text adds no node. *)
Definition write_paragraph (pending : Pending) (translatedTexts : list string)
    (st : xml * nat) (p : path) : xml * nat :=
  write_nodes (length (elements_under is_wt st.1 p)) pending translatedTexts p 0 st.

Definition write_back (pending : Pending) (translatedTexts : list string)
    (doc : xml) (paragraphs : list path) : xml * nat :=
  foldl (write_paragraph pending translatedTexts) (doc, 0) paragraphs.

Definition percent_callback (onProgress : Z -> M unit) : BatchProgressCallback :=
  fun '(completed, total) => onProgress (round_percent completed total).

Definition document_xml : string := "word/document.xml".

Definition translateDocx (zip : gmap string string) (config : TranslationConfig)
    (onProgress : Z -> M unit) (onLog : option LogCallback) : M (result Blob) :=
  call_opt onLog (MsgDocxStart, info, None) ;;;
  let docXml := zip !! document_xml in
  if negb (Js.truthy (default "" docXml)) then ret (Throw "word/document.xml not found")
  else
    let xmlDoc := parseFromString (default "" docXml) in
    let paragraphs := document_elements is_wp xmlDoc in
    let '(pending, textsToTranslate) := extract xmlDoc paragraphs in
    let rawTexts := TextItem.text <$> textsToTranslate in
    let total := length rawTexts in
    call_opt onLog (MsgDocxParsed total, info, None) ;;;
    if total =? 0 then
      call_opt onLog (MsgDocxNothing, warning, None) ;;;
      ret (Ok (ZipBlob zip))
    else
      translatedTexts <-
        translateBatch rawTexts config (Some (percent_callback onProgress)) onLog ;;
      call_opt onLog (MsgDocxTranslated, info, None) ;;;
      let '(xmlDoc, _) := write_back pending translatedTexts xmlDoc paragraphs in
      let newDocXml := serializeToString xmlDoc in
      let zip := <[ document_xml := newDocXml ]> zip in
      call_opt onLog (MsgDocxDone, success, None) ;;;
      ret (Ok (ZipBlob zip)).

Definition paragraph_separator : string :=
  String Js.newline (String Js.newline EmptyString).

Definition translateMarkdown (content : string) (config : TranslationConfig)
    (onProgress : Z -> M unit) (onLog : option LogCallback) : M Blob :=
  call_opt onLog (MsgMarkdownStart, info, None) ;;;
  let paragraphs := Js.split_blank_lines content in
  call_opt onLog (MsgMarkdownParsed (length paragraphs), info, None) ;;;
  translatedParagraphs <-
    translateBatch paragraphs config (Some (percent_callback onProgress)) onLog ;;
  let finalContent := Js.join paragraph_separator translatedParagraphs in
  call_opt onLog (MsgMarkdownDone, success, None) ;;;
  ret (TextBlob finalContent "text/markdown").

Definition translatePlainFile (content : string) (config : TranslationConfig)
    (onProgress : Z -> M unit) (onLog : option LogCallback) : M Blob :=
  call_opt onLog (MsgPlainStart, info, None) ;;;
  translated <-
    translateBatch [content] config (Some (fun _ => onProgress 100%Z)) onLog ;;
  ret (TextBlob (default "undefined" (translated !! 0)) "text/plain").

Definition page_break : string :=
  paragraph_separator +:+ Js.repeat "-" 20 +:+ " Page Break " +:+ Js.repeat "-" 20
  +:+ paragraph_separator.

Definition translatePdfPages (pages : list string) (config : TranslationConfig)
    (onProgress : BatchProgressCallback) (onLog : option LogCallback) : M Blob :=
  call_opt onLog (MsgPdfStart (length pages), info, None) ;;;
  translatedPages <-
    translateBatch pages config
      (Some (fun '(completed, total) => onProgress (completed, total))) onLog ;;
  call_opt onLog (MsgPdfTranslated, info, None) ;;;
  let finalContent := Js.join page_break translatedPages in
  ret (TextBlob finalContent "text/plain").

End Processor.

(** ** The document parser *)

Inductive FileType : Type := docx | md | pdf | txt.

(** A [File] of the browser: its name, its MIME type, its bytes
    ([arrayBuffer()]) and its bytes read as text ([text()]). *)
Module File.
Record t : Type := {
  name : string;
  type : string;
  arrayBuffer : list Byte.byte;
  text : string
}.
End File.

Inductive OriginalData : Type :=
  | OfBuffer (buffer : list Byte.byte)
  | OfText (data : string).

Module ParsedDocument.
Record t : Type := {
  type : FileType;
  content : string;
  originalData : OriginalData;
  structure : option (gmap string string);
  pages : option (list string)
}.
End ParsedDocument.

(** The libraries under the parser. [zip_loadAsync] is [JSZip.loadAsync]:
    the entries of the archive by name, each with its content as a string,
    or the error of the library on bytes that are no archive.
    [pdf_getDocument] is pdf.js: for each page in order the [str] of its
    text items, or the error of the library. *)
Class Libraries : Type := {
  zip_loadAsync : list Byte.byte -> result (gmap string string);
  pdf_getDocument : list Byte.byte -> result (list (list string))
}.

Definition getFileType (filename : string) : FileType :=
  let ext := Js.toLowerCase <$> Js.pop (Js.split_char "." filename) in
  if bool_decide (ext = Some "docx") then docx
  else if bool_decide (ext = Some "pdf") then pdf
  else if bool_decide (ext = Some "md") || bool_decide (ext = Some "markdown") then md
  else txt.

Section Parser.

Context `{Libraries}.

Definition parseDocx (buffer : list Byte.byte) : result ParsedDocument.t :=
  match zip_loadAsync buffer with
  | Throw e => Throw e
  | Ok zip =>
      let documentXml := zip !! document_xml in
      if negb (Js.truthy (default "" documentXml)) then Throw "Invalid DOCX file"
      else
        Ok {| ParsedDocument.type := docx;
              ParsedDocument.content := "DOCX content loaded";
              ParsedDocument.originalData := OfBuffer buffer;
              ParsedDocument.structure := Some zip;
              ParsedDocument.pages := None |}
  end.

(** The loop of [parsePdf] over the pages. *)
Fixpoint parsePdf_pages (pdf_pages : list (list string))
    (fullText : string) (pages : list string) : string * list string :=
  match pdf_pages with
  | [] => (fullText, pages)
  | items :: rest =>
      let pageText := Js.join " " items in
      parsePdf_pages rest
        (fullText +:+ pageText +:+ paragraph_separator) (pages ++ [pageText])
  end.

Definition parsePdf (buffer : list Byte.byte) : result ParsedDocument.t :=
  match pdf_getDocument buffer with
  | Throw e => Throw e
  | Ok pdf_pages =>
      let '(fullText, pages) := parsePdf_pages pdf_pages "" [] in
      Ok {| ParsedDocument.type := pdf;
            ParsedDocument.content := fullText;
            ParsedDocument.originalData := OfBuffer buffer;
            ParsedDocument.structure := None;
            ParsedDocument.pages := Some pages |}
  end.

Definition parseDocument (file : File.t) : result ParsedDocument.t :=
  let arrayBuffer := File.arrayBuffer file in
  let fileType := getFileType (File.name file) in
  match fileType with
  | docx => parseDocx arrayBuffer
  | pdf => parsePdf arrayBuffer
  | _ =>
      let text := File.text file in
      Ok {| ParsedDocument.type := fileType;
            ParsedDocument.content := text;
            ParsedDocument.originalData := OfText text;
            ParsedDocument.structure := None;
            ParsedDocument.pages := None |}
  end.

End Parser.

(** ** The download of a result *)

Module FileStatus.
Inductive t : Type :=
  | idle | uploading | processing | translating | completed | error.
End FileStatus.

Record FileWithStatus : Type := {
  file : File.t;
  item_id : string;
  item_status : FileStatus.t;
  item_progress : Z;
  resultBlob : option Blob
}.

(** The name that [downloadFile] gives to the download. *)
Definition download_name (name mime : string) : string :=
  let ext := default "undefined" (Js.pop (Js.split_char "." name)) in
  let ext := if bool_decide (mime = "application/pdf") then "txt" else ext in
  "translated_" +:+ Js.replace_first ("." +:+ ext) "" name +:+ "." +:+ ext.

(** [downloadFile]: the arguments of [saveAs] when it is called. *)
Definition downloadFile (item : FileWithStatus) : option (Blob * string) :=
  match resultBlob item with
  | Some blob =>
      Some (blob, download_name (File.name (file item)) (File.type (file item)))
  | None => None
  end.

(** *** Files and libraries for the examples *)

(** Libraries that answer with a given archive and a given PDF. *)
Definition fixed_libraries (archive : result (gmap string string))
    (pdf_pages : result (list (list string))) : Libraries :=
  {| zip_loadAsync := fun _ => archive; pdf_getDocument := fun _ => pdf_pages |}.

(** An archive whose [word/document.xml] part is there and empty. *)
Definition empty_part_archive : gmap string string := {[ document_xml := "" ]}.

Definition sample_docx_file : File.t :=
  {| File.name := "report.docx";
     File.type := "application/vnd.openxmlformats-officedocument.wordprocessingml.document";
     File.arrayBuffer := [];
     File.text := "" |}.

Definition sample_csv_file : File.t :=
  {| File.name := "table.CSV";
     File.type := "text/csv";
     File.arrayBuffer := [];
     File.text := "a,b" |}.

Definition sample_pdf_file : File.t :=
  {| File.name := "report.pdf";
     File.type := "application/pdf";
     File.arrayBuffer := [];
     File.text := "" |}.

(** A translated PDF, ready for download. *)
Definition sample_pdf_item : FileWithStatus :=
  {| file := sample_pdf_file;
     item_id := "1";
     item_status := FileStatus.completed;
     item_progress := 100%Z;
     resultBlob := Some (TextBlob "PAGE ONE" "text/plain") |}.

(** The extension that [getFileType] looks at. *)
Definition extension (filename : string) : option string :=
  Js.toLowerCase <$> Js.pop (Js.split_char "." filename).

Definition text_document (fileType : FileType) (text : string) : ParsedDocument.t :=
  {| ParsedDocument.type := fileType;
     ParsedDocument.content := text;
     ParsedDocument.originalData := OfText text;
     ParsedDocument.structure := None;
     ParsedDocument.pages := None |}.

(** ** src/lib/auth-service.ts: the user store

    The users live in [localStorage] under one key, as the JSON text of an
    array; the id of the current user lives under a second key, in
    [localStorage] when the session is to be remembered and in
    [sessionStorage] otherwise. The model keeps what the JSON text denotes:
    the item of the users is absent, or text that [JSON.parse] rejects, or
    the array that [saveUsers] wrote. The errors are kept symbolic, one
    constructor per message of the source. The id that [nanoid()] draws and
    the time that [Date.now()] reads are arguments of [register]. *)

Module User.
Record t : Type := {
  id : string;
  email : string;
  name : string;
  apiKey : option string;
  model : option string;
  baseUrl : option string;
  customModelName : option string;
  createdAt : Z;
  _password : option string
}.
End User.

(** A key of the [settings] argument of [updateSettings]: absent, or given
    with a value that may be [undefined]. *)
Inductive Setting : Type :=
  | Absent
  | Given (value : option string).

Module Settings.
Record t : Type := {
  apiKey : Setting;
  model : Setting;
  baseUrl : Setting;
  customModelName : Setting
}.
End Settings.

Inductive UsersItem : Type :=
  | Unparsable
  | UsersJson (users : list User.t).

Record Storage : Type := {
  local_users : option UsersItem;
  local_current : option string;
  session_current : option string
}.

Inductive AuthError : Type :=
  | EmailTaken
  | BadCredentials
  | NotLoggedIn
  | UserMissing.

(** How a promise of the service settles. *)
Inductive settled (A : Type) : Type :=
  | Resolved (value : A)
  | Rejected (reason : AuthError).
Arguments Resolved {A} value.
Arguments Rejected {A} reason.

(** [{ ...old, ...settings }] on one key. *)
Definition spread (old : option string) (s : Setting) : option string :=
  match s with
  | Absent => old
  | Given value => value
  end.

Module authService.

Definition getUsers (st : Storage) : list User.t :=
  match local_users st with
  | Some (UsersJson users) => users
  | Some Unparsable => []
  | None => []
  end.

Definition saveUsers (users : list User.t) (st : Storage) : Storage :=
  {| local_users := Some (UsersJson users);
     local_current := local_current st;
     session_current := session_current st |}.

Definition login (email password : string) (rememberMe : bool) (st : Storage)
  : settled User.t * Storage :=
  let users := getUsers st in
  match List.find (fun u => bool_decide (User.email u = email)
                            && bool_decide (User._password u = Some password)) users with
  | None => (Rejected BadCredentials, st)
  | Some found =>
      (Resolved found,
       if rememberMe
       then {| local_users := local_users st;
               local_current := Some (User.id found);
               session_current := None |}
       else {| local_users := local_users st;
               local_current := None;
               session_current := Some (User.id found) |})
  end.

(** The [newUser] of [register], and the object pushed to the array when
    [_password] is given. *)
Definition newUser (email fresh_id : string) (now : Z) (password : option string)
  : User.t :=
  {| User.id := fresh_id;
     User.email := email;
     User.name := default "" (head (Js.split_char "@" email));
     User.apiKey := None;
     User.model := None;
     User.baseUrl := None;
     User.customModelName := None;
     User.createdAt := now;
     User._password := password |}.

Definition register (email password : string) (rememberMe : bool)
    (fresh_id : string) (now : Z) (st : Storage) : settled User.t * Storage :=
  let users := getUsers st in
  if existsb (fun u => bool_decide (User.email u = email)) users
  then (Rejected EmailTaken, st)
  else
    let st := saveUsers (users ++ [newUser email fresh_id now (Some password)]) st in
    match login email password rememberMe st with
    | (Resolved _, st) => (Resolved (newUser email fresh_id now None), st)
    | (Rejected reason, st) => (Rejected reason, st)
    end.

Definition logout (st : Storage) : Storage :=
  {| local_users := local_users st;
     local_current := None;
     session_current := None |}.

Definition getCurrentUser (st : Storage) : option User.t :=
  let userId :=
    match local_current st with
    | Some s => if Js.truthy s then Some s else session_current st
    | None => session_current st
    end in
  match userId with
  | Some userId =>
      if Js.truthy userId
      then List.find (fun u => bool_decide (User.id u = userId)) (getUsers st)
      else None
  | None => None
  end.

Definition merge (old : User.t) (settings : Settings.t) : User.t :=
  {| User.id := User.id old;
     User.email := User.email old;
     User.name := User.name old;
     User.apiKey := spread (User.apiKey old) (Settings.apiKey settings);
     User.model := spread (User.model old) (Settings.model settings);
     User.baseUrl := spread (User.baseUrl old) (Settings.baseUrl settings);
     User.customModelName :=
       spread (User.customModelName old) (Settings.customModelName settings);
     User.createdAt := User.createdAt old;
     User._password := User._password old |}.

Definition updateSettings (settings : Settings.t) (st : Storage)
  : settled User.t * Storage :=
  match getCurrentUser st with
  | None => (Rejected NotLoggedIn, st)
  | Some currentUser =>
      let users := getUsers st in
      match list_find (fun u => User.id u = User.id currentUser) users with
      | Some (index, found) =>
          let merged := merge found settings in
          (Resolved merged, saveUsers (<[ index := merged ]> users) st)
      | None => (Rejected UserMissing, st)
      end
  end.

End authService.

(** A store for the examples. *)
Definition alice : User.t :=
  {| User.id := "u1"; User.email := "alice@example.com"; User.name := "alice";
     User.apiKey := None; User.model := None; User.baseUrl := None;
     User.customModelName := None; User.createdAt := 1%Z;
     User._password := Some "wonder" |}.

Definition bob : User.t :=
  {| User.id := "u2"; User.email := "bob@example.com"; User.name := "bob";
     User.apiKey := Some "sk-bob"; User.model := None; User.baseUrl := None;
     User.customModelName := None; User.createdAt := 2%Z;
     User._password := Some "builder" |}.

Definition two_users : Storage :=
  {| local_users := Some (UsersJson [alice; bob]);
     local_current := None;
     session_current := None |}.

(** The same store after a login of alice for one session. *)
Definition alice_logged_in : Storage :=
  {| local_users := Some (UsersJson [alice; bob]);
     local_current := None;
     session_current := Some "u1" |}.

Definition empty_storage : Storage :=
  {| local_users := None; local_current := None; session_current := None |}.

Definition deepseek_settings : Settings.t :=
  {| Settings.apiKey := Given (Some "sk-new");
     Settings.model := Given (Some "deepseek-chat");
     Settings.baseUrl := Given (Some "https://api.deepseek.com");
     Settings.customModelName := Absent |}.

(** ** src/components/FileUpload.tsx: the check of the files to add *)

(** [s.endsWith(suffix)]. *)
Fixpoint endsWith (s suffix : string) : bool :=
  if String.eqb s suffix then true
  else
    match s with
    | EmptyString => false
    | String _ s' => endsWith s' suffix
    end.

Definition allowedExts : list string := [".pdf"; ".docx"; ".md"; ".txt"].

Definition maxSize : nat := 10 * 1024 * 1024.

(** [file.size]: the number of bytes of the file. *)
Definition file_size (file : File.t) : nat := length (File.arrayBuffer file).

(** The error toasts of [processFiles], with the name of the file. *)
Inductive UploadToast : Type :=
  | UnsupportedFormat (name : string)
  | TooLarge (name : string).

(** The body of [files.forEach]: what is shown and [validFiles] after one
    more file. *)
Definition check_file (st : list UploadToast * list File.t) (file : File.t)
  : list UploadToast * list File.t :=
  let '(toasts, validFiles) := st in
  let isAllowed :=
    existsb (fun e => endsWith (Js.toLowerCase (File.name file)) e) allowedExts in
  if negb isAllowed then (toasts ++ [UnsupportedFormat (File.name file)], validFiles)
  else if maxSize <? file_size file
       then (toasts ++ [TooLarge (File.name file)], validFiles)
       else (toasts, validFiles ++ [file]).

(** [processFiles]: the toasts shown, in order, and the argument of
    [onFilesAdded] when it is called. *)
Definition processFiles (fileList : option (list File.t))
  : list UploadToast * option (list File.t) :=
  match fileList with
  | None => ([], None)
  | Some files =>
      let '(toasts, validFiles) := foldl check_file ([], []) files in
      (toasts, if 0 <? length validFiles then Some validFiles else None)
  end.

(** ** The home page: the settings sent to the translator *)

Module ModelEntry.
Record t : Type := { id : string; name : string; baseUrl : string }.
End ModelEntry.

Definition MODELS : list ModelEntry.t :=
  [ {| ModelEntry.id := "gpt-4o"; ModelEntry.name := "GPT-4o (OpenAI)";
       ModelEntry.baseUrl := "https://api.openai.com/v1" |};
    {| ModelEntry.id := "gpt-4o-mini"; ModelEntry.name := "GPT-4o Mini (OpenAI)";
       ModelEntry.baseUrl := "https://api.openai.com/v1" |};
    {| ModelEntry.id := "deepseek-chat"; ModelEntry.name := "DeepSeek V3 (DeepSeek)";
       ModelEntry.baseUrl := "https://api.deepseek.com" |};
    {| ModelEntry.id := "deepseek-reasoner"; ModelEntry.name := "DeepSeek R1 (DeepSeek)";
       ModelEntry.baseUrl := "https://api.deepseek.com" |};
    {| ModelEntry.id := "custom"; ModelEntry.name := "Custom Model (Compatible)";
       ModelEntry.baseUrl := "" |} ].

(** The state of the settings panel that the translator reads. *)
Record SettingsPanel : Type := {
  panel_apiKey : string;
  panel_targetLang : Lang;
  panel_model : string;
  panel_baseUrl : string;
  panel_customModelName : string
}.

(** [handleModelChange]: [setModel], and [setBaseUrl] for a listed model
    other than the custom one. *)
Definition handleModelChange (newModel : string) (panel : SettingsPanel) : SettingsPanel :=
  let selected := List.find (fun m => bool_decide (ModelEntry.id m = newModel)) MODELS in
  {| panel_apiKey := panel_apiKey panel;
     panel_targetLang := panel_targetLang panel;
     panel_model := newModel;
     panel_baseUrl :=
       match selected with
       | Some m =>
           if negb (bool_decide (ModelEntry.id m = "custom"))
           then ModelEntry.baseUrl m
           else panel_baseUrl panel
       | None => panel_baseUrl panel
       end;
     panel_customModelName := panel_customModelName panel |}.

(** [processConfig] of [handleProcess]. *)
Definition processConfig (panel : SettingsPanel) : TranslationConfig :=
  {| apiKey := panel_apiKey panel;
     targetLang := panel_targetLang panel;
     baseUrl := if Js.truthy (panel_baseUrl panel) then Some (panel_baseUrl panel) else None;
     model := Some (if bool_decide (panel_model panel = "custom")
                    then panel_customModelName panel
                    else panel_model panel) |}.

(** The messages that the home page logs by itself. *)
Inductive page_message : Type :=
  | PageParseStart
  | PageParsed (type : FileType)
  | PagePdfAsText
  | PageAllDone
  | PageFailed (reason : string).

Section HomePage.

Context `{Service} `{Browser} `{Libraries}.

(** The error that the engine raises when [translateDocx] is handed
    [undefined] for the archive. *)
Variable undefined_archive_error : string.

(** Step 2 of the loop of [handleProcess]: the choice of the reassembler
    for a parsed document. [onPercent p] stands for
    [updateFileStatus(item.id, 'translating', 10 + (p * 0.8))], [toast_info]
    for the toast of the PDF fallback, [addLog] for [addLog] at the name of
    the file. *)
Definition translateParsed (parsed : ParsedDocument.t) (config : TranslationConfig)
    (onPercent : Z -> M unit) (toast_info : M unit)
    (addLog : (message + page_message) * LogType * option Z -> M unit)
  : M (result Blob) :=
  let logCallback : LogCallback :=
    fun '(msg, type, dur) => addLog (inl msg, type, dur) in
  let plain (is_pdf : bool) : M (result Blob) :=
    (if is_pdf
     then toast_info ;;; addLog (inr PagePdfAsText, warning, None)
     else (ret tt : M unit)) ;;;
    resultBlob <-
      translatePlainFile (ParsedDocument.content parsed) config onPercent
        (Some logCallback) ;;
    ret (Ok resultBlob) in
  match ParsedDocument.type parsed with
  | docx =>
      match ParsedDocument.structure parsed with
      | Some zip => translateDocx zip config onPercent (Some logCallback)
      | None =>
          logCallback (MsgDocxStart, info, None) ;;;
          ret (Throw undefined_archive_error)
      end
  | md =>
      resultBlob <-
        translateMarkdown (ParsedDocument.content parsed) config onPercent
          (Some logCallback) ;;
      ret (Ok resultBlob)
  | pdf =>
      match ParsedDocument.pages parsed with
      | Some pages =>
          resultBlob <-
            translatePdfPages pages config (percent_callback onPercent)
              (Some logCallback) ;;
          ret (Ok resultBlob)
      | None => plain true
      end
  | txt => plain false
  end.

(** Steps 1 and 2 of the loop body for one file: the parse, then the
    translation; the value is the blob of step 2, or what the [try] block
    throws. [updateFileStatus (status, progress)] stands for
    [updateFileStatus(item.id, status, progress)] at the progress values 0
    and 10. *)
Definition processFile (file : File.t) (config : TranslationConfig)
    (updateFileStatus : FileStatus.t * Z -> M unit)
    (onPercent : Z -> M unit) (toast_info : M unit)
    (addLog : (message + page_message) * LogType * option Z -> M unit)
  : M (result Blob) :=
  updateFileStatus (FileStatus.processing, 0%Z) ;;;
  addLog (inr PageParseStart, info, None) ;;;
  match parseDocument file with
  | Throw e => ret (Throw e)
  | Ok parsed =>
      updateFileStatus (FileStatus.translating, 10%Z) ;;;
      addLog (inr (PageParsed (ParsedDocument.type parsed)), success, None) ;;;
      translateParsed parsed config onPercent toast_info addLog
  end.

End HomePage.

(** ** Vocabulary of the further properties *)

(** The contents that a stream adds to the result: those that are given
    and not empty. *)
Definition contents (stream : list (option string)) : list string :=
  filter (fun s => Js.truthy s = true) ((fun chunk => Js.or_default chunk "") <$> stream).

(** The texts that grow from [acc] by the pieces of [l], one after the
    other. *)
Fixpoint growing (acc : string) (l : list string) : list string :=
  match l with
  | [] => []
  | piece :: l' => (acc +:+ piece) :: growing (acc +:+ piece) l'
  end.

(** The concatenation of the pieces of [l] after [acc]. *)
Definition grown (acc : string) (l : list string) : string :=
  foldl String.append acc l.

(** The entries of the recording logger in a trace, without the
    durations. *)
Definition log_messages (trace : list Event) : list (message * LogType) :=
  omap (fun e => match e with
                 | Log msg type _ => Some (msg, type)
                 | _ => None
                 end) trace.

(** The two entries that the batch translator logs for the chunk at
    position [i]: its start, then its success or its failure. *)
Definition chunk_log (total i : nat) (text : string) (outcome : result string)
  : list (message * LogType) :=
  [ (MsgBatchStart (i + 1) total (previewText text), info);
    match outcome with
    | Ok _ => (MsgBatchDone (i + 1) total, success)
    | Throw reason => (MsgBatchFailed (i + 1) total reason, error)
    end ].

(** [s.includes(c)] for a character. *)
Fixpoint contains_char (c : ascii) (s : string) : bool :=
  match s with
  | EmptyString => false
  | String c' s' => Ascii.eqb c' c || contains_char c s'
  end.

(** The page and content that [parsePdf] makes of the pages of a PDF: the
    items of a page joined by spaces, and the pages each followed by a
    blank line. *)
Definition page_text (items : list string) : string := Js.join " " items.

Definition pages_content (pdf_pages : list (list string)) : string :=
  foldr (fun items rest => page_text items +:+ paragraph_separator +:+ rest) "" pdf_pages.

(** What [getFileType] makes of an extension in lower case. *)
Definition type_of_extension (ext : string) : FileType :=
  if bool_decide (ext = "docx") then docx
  else if bool_decide (ext = "pdf") then pdf
  else if bool_decide (ext = "md") || bool_decide (ext = "markdown") then md
  else txt.

(** The kind of blob that the page gets for a parsed document of a type:
    an archive for DOCX, text otherwise. *)
Definition blob_of_type (fileType : FileType) (blob : Blob) : Prop :=
  match fileType with
  | docx => exists archive, blob = ZipBlob archive
  | md => exists content, blob = TextBlob content "text/markdown"
  | pdf | txt => exists content, blob = TextBlob content "text/plain"
  end.

(** The checks of [processFiles] on one file: whether its name ends with
    an allowed extension, the toast it is rejected with if any, and whether
    it is accepted. *)
Definition allowed_name (name : string) : bool :=
  existsb (fun e => endsWith (Js.toLowerCase name) e) allowedExts.

Definition rejection (file : File.t) : option UploadToast :=
  if negb (allowed_name (File.name file)) then Some (UnsupportedFormat (File.name file))
  else if maxSize <? file_size file then Some (TooLarge (File.name file))
  else None.

Definition accepted (file : File.t) : Prop :=
  allowed_name (File.name file) = true /\ file_size file <= maxSize.

#[global] Instance accepted_dec file : Decision (accepted file).
Proof. unfold accepted. apply _. Defined.

(** A document whose only text is white space, a browser that parses
    every text to it, and an archive with a second part. *)
Definition blank_document : xml := Other [ WP [ Other [WT "  "] ] ].

Definition blank_browser : Browser :=
  {| parseFromString := fun _ => blank_document;
     serializeToString := render;
     round_percent := fun completed total => Z.of_nat (completed * 100 / total) |}.

Definition sample_archive : gmap string string :=
  {[ document_xml := "<w:document/>"; "word/styles.xml" := "<w:styles/>" ]}.

(** [s.includes(pattern)]. *)
Fixpoint includes (pattern s : string) : bool :=
  String.prefix pattern s
  || match s with
     | EmptyString => false
     | String _ s' => includes pattern s'
     end.

(** A service that refuses every request, with the same reason. *)
Definition refusing_service (reason : string) : Service :=
  {| Oracle := Z;
     create := fun _ t => (refusal reason, t);
     date_now := fun t => (t, (t + 1)%Z) |}.

(** The texts that [translateDocx] hands to the batch translator: those of
    the translatable [<w:t>] nodes of the document part, in the order of
    the visits; none when the part is missing or empty. *)
Definition document_texts `{Browser} (archive : gmap string string) : list string :=
  match archive !! document_xml with
  | Some docXml =>
      if Js.truthy docXml
      then textContent (parseFromString docXml) <$> marked_visits (parseFromString docXml)
      else []
  | None => []
  end.

(** A text that [translateText] sends to the service. *)
Definition sendable (text : string) : Prop := Js.all_white_space text = false.

Section Quiet.

Context `{Service}.

(** A callback that sends nothing to the service, and one that logs
    nothing with the recording logger. *)
Definition request_free {A} (f : option (A -> M unit)) : Prop :=
  forall g x o, f = Some g -> remote_calls (trace_of (g x o)) = [].

Definition log_free {A} (f : option (A -> M unit)) : Prop :=
  forall g x o, f = Some g -> log_messages (trace_of (g x o)) = [].

End Quiet.

(** * Properties *)

(** ** Running computations *)

Section RunLemmas.

Context `{Service}.

Lemma run_bind {A B} (m : M A) (f : A -> M B) (o : Oracle) :
  bind m f o =
    (value_of (f (value_of (m o)) (oracle_of (m o))),
     trace_of (m o) ++ trace_of (f (value_of (m o)) (oracle_of (m o))),
     oracle_of (f (value_of (m o)) (oracle_of (m o)))).
Proof.
  unfold bind, value_of, trace_of, oracle_of.
  destruct (m o) as [[a t1] o1]; simpl.
  destruct (f a o1) as [[b t2] o2]; reflexivity.
Qed.

Lemma bind_assoc {A B C} (m : M A) (f : A -> M B) (g : B -> M C) (o : Oracle) :
  bind (bind m f) g o = bind m (fun a => bind (f a) g) o.
Proof.
  unfold bind.
  destruct (m o) as [[a t1] o1].
  destruct (f a o1) as [[b t2] o2].
  destruct (g b o2) as [[c t3] o3].
  rewrite app_assoc. reflexivity.
Qed.

Lemma run_eta {A} (r : A * list Event * Oracle) :
  r = (value_of r, trace_of r, oracle_of r).
Proof. destruct r as [[a t] o]; reflexivity. Qed.

Lemma value_bind {A B} (m : M A) (f : A -> M B) o :
  value_of (bind m f o) = value_of (f (value_of (m o)) (oracle_of (m o))).
Proof. rewrite run_bind; reflexivity. Qed.

Lemma trace_bind {A B} (m : M A) (f : A -> M B) o :
  trace_of (bind m f o) =
    trace_of (m o) ++ trace_of (f (value_of (m o)) (oracle_of (m o))).
Proof. rewrite run_bind; reflexivity. Qed.

Lemma oracle_bind {A B} (m : M A) (f : A -> M B) o :
  oracle_of (bind m f o) = oracle_of (f (value_of (m o)) (oracle_of (m o))).
Proof. rewrite run_bind; reflexivity. Qed.

End RunLemmas.

(** The equations of [bind], to push [value_of], [trace_of] and
    [oracle_of] through a computation. *)
Create Rewrite HintDb run.
#[local] Hint Rewrite @value_bind @trace_bind @oracle_bind : run.

Ltac run_through := autorewrite with run.

(** ** The translation client *)

Section ClientLemmas.

Context `{Service}.

Lemma trimStart_white s : Js.all_white_space s = true -> Js.trimStart s = "".
Proof.
  induction s as [|c s IH]; simpl; [reflexivity|].
  intros [Hc Hs]%andb_true_iff. rewrite Hc. auto.
Qed.

Lemma trim_white s : Js.all_white_space s = true -> Js.trim s = "".
Proof. intros Hs. unfold Js.trim. rewrite trimStart_white; auto. Qed.

Lemma trimEnd_empty s : Js.trimEnd s = "" -> Js.all_white_space s = true.
Proof.
  induction s as [|c s IH]; simpl; [reflexivity|].
  destruct (Js.trimEnd s) eqn:E; [|discriminate].
  destruct (Js.is_white_space c); [auto | discriminate].
Qed.

Lemma trimStart_all_white s :
  Js.all_white_space (Js.trimStart s) = true -> Js.all_white_space s = true.
Proof.
  induction s as [|c s IH]; simpl; [reflexivity|].
  destruct (Js.is_white_space c) eqn:Hc; simpl; [auto|].
  rewrite Hc; simpl; discriminate.
Qed.

(** The guard of [translateText] is exactly "empty or white space only". *)
Lemma blank_guard text :
  negb (Js.truthy text) || negb (Js.truthy (Js.trim text)) = Js.all_white_space text.
Proof.
  destruct (Js.all_white_space text) eqn:Hw.
  - rewrite (trim_white _ Hw). simpl. apply orb_true_r.
  - destruct text as [|c s]; [discriminate Hw|]. simpl negb at 1.
    destruct (Js.trim (String c s)) eqn:Et; [|reflexivity].
    apply trimEnd_empty, trimStart_all_white in Et. congruence.
Qed.

End ClientLemmas.

(** ** The batch translator *)

Section BatchLemmas.

Context `{Service}.
Variable config : TranslationConfig.
Variable onBatchProgress : option BatchProgressCallback.
Variable onLog : option LogCallback.

Abbreviation loop := (translateBatch_from config onBatchProgress onLog).
Abbreviation turn := (turn config onBatchProgress onLog).

Lemma settle_value total i text results attempted o :
  value_of (settle onBatchProgress onLog total i text results attempted o)
  = results ++ [chunk_result text attempted.2].
Proof.
  destruct attempted as [startTime [translated|e]]; simpl;
    run_through; reflexivity.
Qed.

Lemma turn_value total i text results o :
  value_of (turn total i text results o)
  = results ++ [chunk_result text (value_of (attempt onLog config total i text o)).2].
Proof. unfold turn. rewrite value_bind, settle_value. reflexivity. Qed.

Lemma loop_cons total i text rest results o :
  loop total i (text :: rest) results o =
    let r := turn total i text results o in
    let r' := loop total (S i) rest (value_of r) (oracle_of r) in
    (value_of r', trace_of r ++ trace_of r', oracle_of r').
Proof.
  cbn [translateBatch_from]. unfold turn.
  rewrite <- bind_assoc. apply run_bind.
Qed.

Lemma loop_app total xs : forall ys i results o,
  loop total i (xs ++ ys) results o =
    let r := loop total i xs results o in
    let r' := loop total (i + length xs) ys (value_of r) (oracle_of r) in
    (value_of r', trace_of r ++ trace_of r', oracle_of r').
Proof.
  induction xs as [|x xs IH]; intros ys i results o.
  - cbn. rewrite Nat.add_0_r. apply run_eta.
  - rewrite <- app_comm_cons, !loop_cons. cbn zeta.
    rewrite IH. cbn zeta. cbn [length].
    replace (i + S (length xs)) with (S i + length xs) by lia.
    unfold value_of, trace_of, oracle_of; cbn. rewrite app_assoc. reflexivity.
Qed.

(** The loop only appends, one result per chunk. *)
Lemma loop_value total rest : forall i results o,
  exists added,
    value_of (loop total i rest results o) = results ++ added
    /\ length added = length rest.
Proof.
  induction rest as [|x rest IH]; intros i results o.
  - exists []. cbn. rewrite app_nil_r. auto.
  - rewrite loop_cons. cbn zeta.
    destruct (IH (S i) (value_of (turn total i x results o))
                (oracle_of (turn total i x results o))) as (added & Hv & Hl).
    rewrite turn_value in Hv.
    eexists (_ :: added). split.
    + unfold value_of at 1. cbn. fold (value_of (loop total (S i) rest
        (value_of (turn total i x results o)) (oracle_of (turn total i x results o)))).
      rewrite turn_value, Hv, <- app_assoc. reflexivity.
    + cbn. rewrite Hl. reflexivity.
Qed.

Lemma loop_length total rest i results o :
  length (value_of (loop total i rest results o)) = length results + length rest.
Proof.
  destruct (loop_value total rest i results o) as (added & -> & <-).
  apply length_app.
Qed.

(** The run of the whole batch, cut at position [i]. *)
Lemma batch_split (texts : list string) (o : Oracle) (i : nat) (text : string) :
  texts !! i = Some text ->
  translateBatch texts config onBatchProgress onLog o =
    let before := run_before config onBatchProgress onLog texts o i in
    let r := turn (length texts) i text (value_of before) (oracle_of before) in
    let r' := loop (length texts) (S i) (drop (S i) texts) (value_of r) (oracle_of r) in
    (value_of r', trace_of before ++ trace_of r ++ trace_of r', oracle_of r').
Proof.
  intros Hi. unfold translateBatch, run_before.
  rewrite <- (take_drop_middle texts i text Hi) at 2.
  rewrite loop_app. cbn zeta. rewrite loop_cons. cbn zeta.
  rewrite length_take_le by (apply lookup_lt_Some in Hi; lia).
  reflexivity.
Qed.

Lemma run_before_length texts o i :
  i <= length texts ->
  length (value_of (run_before config onBatchProgress onLog texts o i)) = i.
Proof.
  intros Hi. unfold run_before. rewrite loop_length. cbn.
  rewrite length_take_le; lia.
Qed.

Lemma outcome_at_lookup texts o i text :
  texts !! i = Some text ->
  outcome_at config onBatchProgress onLog texts o i =
    Some (value_of (attempt onLog config (length texts) i text
            (oracle_of (run_before config onBatchProgress onLog texts o i)))).2.
Proof. intros Hi. unfold outcome_at. rewrite Hi. reflexivity. Qed.

Lemma batch_lookup texts o i text :
  texts !! i = Some text ->
  value_of (translateBatch texts config onBatchProgress onLog o) !! i
  = chunk_result text <$> outcome_at config onBatchProgress onLog texts o i.
Proof.
  intros Hi. rewrite (batch_split texts o i text Hi). cbn zeta.
  pose proof (run_before_length texts o i) as Hlen.
  rewrite (outcome_at_lookup texts o i text Hi).
  set (before := run_before config onBatchProgress onLog texts o i) in *.
  set (r := turn (length texts) i text (value_of before) (oracle_of before)).
  destruct (loop_value (length texts) (drop (S i) texts) (S i)
              (value_of r) (oracle_of r)) as (added & Hv & _).
  unfold value_of at 1. cbn [fst].
  change ((loop (length texts) (S i) (drop (S i) texts) (value_of r) (oracle_of r)).1.1)
    with (value_of (loop (length texts) (S i) (drop (S i) texts) (value_of r) (oracle_of r))).
  rewrite Hv. subst r. rewrite turn_value, <- app_assoc.
  apply lookup_lt_Some in Hi.
  rewrite lookup_app_r; rewrite Hlen; try lia.
  rewrite Nat.sub_diag. reflexivity.
Qed.

Lemma batch_length texts o :
  length (value_of (translateBatch texts config onBatchProgress onLog o)) = length texts.
Proof. unfold translateBatch. rewrite loop_length. reflexivity. Qed.

End BatchLemmas.

(** *** The trace of a batch *)

Section BatchTraces.

Context `{Service}.
Variable config : TranslationConfig.

Lemma progress_calls_app t1 t2 :
  progress_calls (t1 ++ t2) = progress_calls t1 ++ progress_calls t2.
Proof. apply omap_app. Qed.

Lemma now_trace o : trace_of (now o) = [].
Proof. unfold now, trace_of. destruct (date_now o); reflexivity. Qed.

Lemma remote_trace request o : trace_of (remote request o) = [RemoteCall request].
Proof. unfold remote, trace_of. destruct (create request o); reflexivity. Qed.

Lemma consume_stream_silent stream : forall result o,
  trace_of (consume_stream None stream result o) = [].
Proof.
  induction stream as [|chunk stream IH]; intros result o; [reflexivity|].
  cbn [consume_stream]. destruct (Js.truthy _); [|apply IH].
  rewrite trace_bind. cbn. apply IH.
Qed.

(** Without [onProgress] the client leaves only its request and, on a
    failure, its line on the console. *)
Lemma translateText_progress_free text o :
  progress_calls (trace_of (translateText text config None o)) = [].
Proof.
  unfold translateText. destruct (_ || _); [reflexivity|].
  rewrite !trace_bind, remote_trace, consume_stream_silent.
  destruct (failure _); [rewrite trace_bind|]; reflexivity.
Qed.

Lemma attempt_progress_free onLog total i text o :
  quiet_logger onLog ->
  progress_calls (trace_of (attempt onLog config total i text o)) = [].
Proof.
  intros Hq. unfold attempt.
  rewrite !trace_bind, now_trace, !progress_calls_app, translateText_progress_free.
  destruct Hq as [-> | ->]; reflexivity.
Qed.

Lemma settle_progress onLog total i text results attempted o :
  quiet_logger onLog ->
  progress_calls
    (trace_of (settle (Some record_batch_progress) onLog total i text results attempted o))
  = if succeeded (Some attempted.2) then [(i + 1, total)] else [].
Proof.
  intros Hq. destruct attempted as [startTime [translated|e]]; cbn [settle snd succeeded];
    rewrite !trace_bind, now_trace, !progress_calls_app;
    destruct Hq as [-> | ->]; reflexivity.
Qed.

Lemma turn_progress onLog total i text results o :
  quiet_logger onLog ->
  progress_calls
    (trace_of (turn config (Some record_batch_progress) onLog total i text results o))
  = if succeeded (Some (value_of (attempt onLog config total i text o)).2)
    then [(i + 1, total)] else [].
Proof.
  intros Hq. unfold turn.
  rewrite trace_bind, progress_calls_app, attempt_progress_free, settle_progress; auto.
Qed.

Lemma run_before_succ onBatchProgress onLog texts o i text :
  texts !! i = Some text ->
  run_before config onBatchProgress onLog texts o (S i) =
    let before := run_before config onBatchProgress onLog texts o i in
    let r := turn config onBatchProgress onLog (length texts) i text
               (value_of before) (oracle_of before) in
    (value_of r, trace_of before ++ trace_of r, oracle_of r).
Proof.
  intros Hi. unfold run_before.
  rewrite (take_S_r texts i text Hi), loop_app. cbn zeta.
  rewrite length_take_le by (apply lookup_lt_Some in Hi; lia).
  rewrite loop_cons. cbn. rewrite app_nil_r. reflexivity.
Qed.

Lemma run_before_progress onLog texts o i :
  quiet_logger onLog ->
  i <= length texts ->
  progress_calls
    (trace_of (run_before config (Some record_batch_progress) onLog texts o i))
  = (fun k => (k + 1, length texts)) <$>
      filter (fun k => succeeded
                (outcome_at config (Some record_batch_progress) onLog texts o k) = true)
             (seq 0 i).
Proof.
  intros Hq. induction i as [|i IH]; intros Hi; [reflexivity|].
  destruct (lookup_lt_is_Some_2 texts i) as [text Htext]; [lia|].
  rewrite (run_before_succ _ _ texts o i text Htext). cbn zeta.
  unfold trace_of at 1. cbn [fst snd].
  rewrite progress_calls_app, IH by lia.
  rewrite seq_S, filter_app, fmap_app. f_equal.
  rewrite turn_progress by assumption.
  rewrite <- (outcome_at_lookup _ _ _ texts o i text Htext).
  change (0 + i) with i. rewrite filter_cons, filter_nil.
  destruct (succeeded _); case_decide; try reflexivity; congruence.
Qed.

Lemma batch_is_run_before onBatchProgress onLog texts o :
  translateBatch texts config onBatchProgress onLog o
  = run_before config onBatchProgress onLog texts o (length texts).
Proof. unfold run_before, translateBatch. rewrite firstn_all. reflexivity. Qed.

End BatchTraces.

Section Increasing.

Lemma seq_increasing n : forall a, StronglySorted lt (seq a n).
Proof.
  induction n as [|n IH]; intros a; cbn; constructor; [apply IH|].
  apply List.Forall_forall. intros x Hx.
  apply list_elem_of_In, elem_of_seq in Hx. lia.
Qed.

Lemma filter_increasing (P : nat -> Prop) `{forall k, Decision (P k)} (l : list nat) :
  StronglySorted lt l -> StronglySorted lt (filter P l).
Proof.
  induction 1 as [|x l Hl IH Hx]; [constructor|].
  rewrite filter_cons. case_decide; [|assumption].
  constructor; [assumption|].
  apply List.Forall_forall. intros y Hy.
  apply list_elem_of_In, list_elem_of_filter in Hy.
  rewrite List.Forall_forall in Hx. apply Hx, list_elem_of_In, Hy.
Qed.

Lemma succ_increasing (l : list nat) :
  StronglySorted lt l -> StronglySorted lt ((fun k => k + 1) <$> l).
Proof.
  induction 1 as [|x l Hl IH Hx]; cbn; constructor; [assumption|].
  rewrite Forall_fmap. eapply Forall_impl; [exact Hx|]. cbn. intros; lia.
Qed.

Lemma filter_all (P : nat -> Prop) `{forall k, Decision (P k)} (l : list nat) :
  (forall k, k ∈ l -> P k) -> filter P l = l.
Proof.
  induction l as [|x l IH]; intros Hall; [reflexivity|].
  rewrite filter_cons. case_decide as Hx.
  - f_equal. apply IH. intros k Hk. apply Hall, elem_of_cons. auto.
  - destruct Hx. apply Hall, elem_of_cons. auto.
Qed.

End Increasing.

Section BatchClaims.

Context `{Service}.

(** C6. For every text that is empty or made of white space only,
    [translateText] returns this very text, and it does so without any
    effect: the trace of the call is empty, so no request is sent to the
    translation service, and the outside world is left as it was. *)
Theorem translateText_blank_is_noop (text : string) (config : TranslationConfig)
    (onProgress : option (string -> M unit)) (o : Oracle) :
  Js.all_white_space text = true ->
  translateText text config onProgress o = (Ok text, [], o)
  /\ remote_calls (trace_of (translateText text config onProgress o)) = [].
Proof.
  intros Hblank. unfold translateText.
  rewrite blank_guard, Hblank. split; reflexivity.
Qed.


Lemma attempt_logs_start config total i text o :
  Log (MsgBatchStart (i + 1) total (previewText text)) info None
    ∈ trace_of (attempt (Some record_log) config total i text o).
Proof.
  unfold attempt. run_through. rewrite now_trace. cbn.
  apply elem_of_cons. left. reflexivity.
Qed.

Lemma settle_logs_failure onBatchProgress total i text results startTime e o :
  exists duration,
    trace_of (settle onBatchProgress (Some record_log) total i text results
                (startTime, Throw e) o)
    = [ ConsoleError (FailedChunk i) e;
        Log (MsgBatchFailed (i + 1) total e) error (Some duration) ].
Proof.
  cbn [settle]. run_through. rewrite now_trace. cbn. eexists. reflexivity.
Qed.


(** What the code does with [onBatchProgress]: it calls it once for each
    chunk whose translation returns, right after it, with the position of
    the chunk counted from 1 and the number of chunks, and never for a
    chunk that falls back to the original. So the completed counts are
    strictly increasing, and when no chunk fails there are as many calls as
    chunks, counting 1, 2, and so on. *)
Lemma progress_once_per_translated_chunk (texts : list string)
    (config : TranslationConfig) (onLog : option LogCallback) (o : Oracle) :
  quiet_logger onLog ->
  let run := translateBatch texts config (Some record_batch_progress) onLog o in
  let translated k :=
    succeeded (outcome_at config (Some record_batch_progress) onLog texts o k) = true in
  progress_calls (trace_of run)
  = (fun k => (k + 1, length texts)) <$> filter translated (seq 0 (length texts))
  /\ StronglySorted lt (progress_calls (trace_of run)).*1
  /\ ((forall k, k < length texts -> translated k) ->
      progress_calls (trace_of run)
      = (fun k => (k + 1, length texts)) <$> seq 0 (length texts)).
Proof.
  intros Hq. cbn zeta.
  rewrite batch_is_run_before, run_before_progress by (auto; lia).
  split; [reflexivity|]. split.
  - rewrite <- list_fmap_compose.
    apply (succ_increasing (filter _ _)), filter_increasing, seq_increasing.
  - intros Hall. f_equal. apply filter_all.
    intros k Hk%elem_of_seq. apply Hall. lia.
Qed.

End BatchClaims.

(** ** The XML document *)

Section XmlLemmas.

(** Induction on a document, with the property for all the children. *)
Lemma xml_induction (P : xml -> Prop) :
  (forall ks, Forall P ks -> P (WP ks)) ->
  (forall t, P (WT t)) ->
  (forall ks, Forall P ks -> P (Other ks)) ->
  forall n, P n.
Proof.
  intros Hp Ht Ho.
  fix self 1. intros [ks|t|ks]; [apply Hp | apply Ht | apply Ho];
    induction ks as [|k ks IH]; constructor; auto.
Qed.

Lemma descendants_children sel n :
  descendants sel n = descendants_from sel 0 (children_of n).
Proof.
  assert (Hthrough : forall ks i,
    (fix through (i : nat) (ks : list xml) {struct ks} : list path :=
       match ks with
       | [] => []
       | k :: ks' =>
           (if sel k then [[i]] else [])
           ++ (cons i <$> descendants sel k) ++ through (S i) ks'
       end) i ks = descendants_from sel i ks).
  { induction ks as [|k ks IH]; intros i; [reflexivity|].
    cbn [descendants_from]. rewrite <- IH. reflexivity. }
  destruct n; cbn [descendants children_of]; [apply Hthrough | reflexivity | apply Hthrough].
Qed.

Lemma node_at_app n p q :
  node_at n (p ++ q) = node_at n p ≫= fun k => node_at k q.
Proof.
  revert n. induction p as [|i p IH]; intros n; [reflexivity|].
  cbn [app node_at]. destruct (children_of n !! i); [apply IH | reflexivity].
Qed.

(** A path of [descendants_from] leads to a selected node. *)
Lemma descendants_from_sound sel ks :
  Forall (fun k => forall p, p ∈ descendants sel k ->
                     exists m, node_at k p = Some m /\ sel m = true) ks ->
  forall i p, p ∈ descendants_from sel i ks ->
    exists j q k, p = j :: q /\ i <= j /\ ks !! (j - i) = Some k
                  /\ exists m, node_at k q = Some m /\ sel m = true.
Proof.
  induction 1 as [|k ks Hk Hks IH]; intros i p Hp; cbn [descendants_from] in Hp.
  - apply elem_of_nil in Hp. contradiction.
  - apply elem_of_app in Hp as [Hp|Hp]; [|apply elem_of_app in Hp as [Hp|Hp]].
    + destruct (sel k) eqn:Hsel; [|apply elem_of_nil in Hp; contradiction].
      apply list_elem_of_singleton in Hp as ->.
      exists i, [], k. rewrite Nat.sub_diag. eauto 10.
    + apply list_elem_of_fmap in Hp as (q & -> & Hq).
      exists i, q, k. rewrite Nat.sub_diag. eauto 10.
    + destruct (IH (S i) p Hp) as (j & q & k' & -> & Hj & Hlook & Hm).
      exists j, q, k'. repeat split; [lia | | exact Hm].
      replace (j - i) with (S (j - S i)) by lia. exact Hlook.
Qed.

Lemma descendants_sound sel n :
  forall p, p ∈ descendants sel n -> exists m, node_at n p = Some m /\ sel m = true.
Proof.
  induction n as [ks IH|t|ks IH] using xml_induction; intros p Hp;
    rewrite descendants_children in Hp; cbn [children_of] in Hp;
    try (apply elem_of_nil in Hp; contradiction);
    destruct (descendants_from_sound sel ks IH 0 p Hp)
      as (j & q & k & -> & _ & Hlook & Hm);
    rewrite Nat.sub_0_r in Hlook; cbn [node_at children_of]; rewrite Hlook; exact Hm.
Qed.

Lemma elements_under_sound sel doc p v :
  v ∈ elements_under sel doc p ->
  exists m, node_at doc v = Some m /\ sel m = true.
Proof.
  unfold elements_under. destruct (node_at doc p) as [n|] eqn:Hn.
  - intros (q & -> & Hq)%list_elem_of_fmap.
    rewrite node_at_app, Hn. cbn. apply descendants_sound, Hq.
  - intros []%elem_of_nil.
Qed.

End XmlLemmas.

Section ShapeLemmas.

Variable sel : xml -> bool.
Hypothesis sel_shape : forall n, sel (shape n) = sel n.

Lemma children_of_shape n : children_of (shape n) = shape <$> children_of n.
Proof. destruct n; reflexivity. Qed.

Lemma descendants_from_shape ks :
  Forall (fun k => descendants sel (shape k) = descendants sel k) ks ->
  forall i, descendants_from sel i (shape <$> ks) = descendants_from sel i ks.
Proof.
  induction 1 as [|k ks Hk Hks IH]; intros i; [reflexivity|].
  cbn [fmap list_fmap descendants_from]. rewrite sel_shape, Hk, IH. reflexivity.
Qed.

Lemma descendants_shape n : descendants sel (shape n) = descendants sel n.
Proof.
  induction n as [ks IH|t|ks IH] using xml_induction; [| reflexivity |];
    rewrite !descendants_children; cbn [shape children_of];
    apply descendants_from_shape, IH.
Qed.

Lemma node_at_shape p : forall n, node_at (shape n) p = shape <$> node_at n p.
Proof.
  induction p as [|i p IH]; intros n; [reflexivity|].
  cbn [node_at]. rewrite children_of_shape, list_lookup_fmap.
  destruct (children_of n !! i); [apply IH | reflexivity].
Qed.

Lemma elements_under_shape doc p :
  elements_under sel (shape doc) p = elements_under sel doc p.
Proof.
  unfold elements_under. rewrite node_at_shape.
  destruct (node_at doc p); [cbn; rewrite descendants_shape|]; reflexivity.
Qed.

Lemma elements_under_same_shape doc doc' p :
  shape doc = shape doc' -> elements_under sel doc p = elements_under sel doc' p.
Proof.
  intros Hs. rewrite <- (elements_under_shape doc), <- (elements_under_shape doc'), Hs.
  reflexivity.
Qed.

End ShapeLemmas.

Section TextLemmas.

Lemma is_wt_shape n : is_wt (shape n) = is_wt n.
Proof. destruct n; reflexivity. Qed.

(** Writing a text changes no shape: the collections of nodes stay. *)
Lemma shape_set_textContent p s : forall n, shape (set_textContent n p s) = shape n.
Proof.
  induction p as [|i p IH]; intros n.
  - destruct n; reflexivity.
  - destruct n as [ks|t|ks]; cbn [set_textContent shape]; [| reflexivity |];
      (destruct (ks !! i) as [k|] eqn:Hk; [|reflexivity]);
      f_equal; rewrite list_fmap_insert, IH;
      apply list_insert_id; rewrite list_lookup_fmap, Hk; reflexivity.
Qed.

Lemma shape_assign doc a : shape (assign doc a) = shape doc.
Proof. unfold assign. destruct (Js.truthy _); [apply shape_set_textContent | reflexivity]. Qed.

Lemma textContent_set_same v s : forall n t,
  node_at n v = Some (WT t) -> textContent (set_textContent n v s) v = s.
Proof.
  unfold textContent. induction v as [|i v IH]; intros n t Hn.
  - cbn in Hn. injection Hn as ->. reflexivity.
  - cbn [node_at] in Hn.
    destruct (children_of n !! i) as [k|] eqn:Hk; [|discriminate].
    specialize (IH k t Hn).
    destruct n as [ks|t'|ks]; cbn [children_of] in Hk;
      [| rewrite lookup_nil in Hk; discriminate |];
      cbn [set_textContent]; rewrite Hk; cbn [node_at children_of];
      rewrite list_lookup_insert_eq by (eapply lookup_lt_Some; eassumption);
      exact IH.
Qed.

Lemma textContent_set_other v s : forall n u,
  u <> v -> textContent (set_textContent n v s) u = textContent n u.
Proof.
  unfold textContent. induction v as [|i v IH]; intros n u Hne.
  - destruct u as [|j u]; [congruence|].
    destruct n; reflexivity.
  - destruct n as [ks|t|ks]; cbn [set_textContent]; [| reflexivity |];
      (destruct (ks !! i) as [k|] eqn:Hk; [|reflexivity]);
      (destruct u as [|j u]; [reflexivity|]);
      cbn [node_at children_of];
      (destruct (decide (j = i)) as [->|Hji];
       [ rewrite list_lookup_insert_eq by (eapply lookup_lt_Some; eassumption);
         rewrite Hk; apply IH; congruence
       | rewrite list_lookup_insert_ne by congruence; reflexivity ]).
Qed.

Lemma is_wt_node_shape doc doc' v :
  shape doc = shape doc' ->
  (exists t, node_at doc v = Some (WT t)) ->
  exists t', node_at doc' v = Some (WT t').
Proof.
  intros Hs [t Ht].
  pose proof (node_at_shape v doc) as H1. pose proof (node_at_shape v doc') as H2.
  rewrite Hs, H2, Ht in H1. destruct (node_at doc' v) as [[ks|t'|ks]|]; try discriminate.
  eauto.
Qed.

Lemma or_else_empty s : Js.or_else s "" = s.
Proof. destruct s; reflexivity. Qed.

End TextLemmas.

(** ** The two passes of [translateDocx] *)

Section PassLemmas.

Lemma foldl_bind {A B C} (f : A -> B -> A) (g : C -> list B) (l : list C) : forall a,
  foldl f a (l ≫= g) = foldl (fun a x => foldl f a (g x)) a l.
Proof.
  induction l as [|x l IH]; intros a; [reflexivity|].
  rewrite bind_cons, foldl_app. cbn [foldl]. apply IH.
Qed.

(** The first pass over any sequence of visits. *)
Lemma extract_nodes_spec doc (visits : list path) : forall pending items,
  foldl (extract_node doc) (pending, items) visits
  = (list_to_set (filter (fun v => translatable doc v = true) visits) ∪ pending,
     items ++ (item_of doc <$> filter (fun v => translatable doc v = true) visits)).
Proof.
  induction visits as [|v visits IH]; intros pending items.
  - cbn. rewrite app_nil_r. f_equal. set_solver.
  - cbn [foldl]. unfold extract_node at 2. rewrite or_else_empty.
    rewrite filter_cons. fold (translatable doc v).
    destruct (translatable doc v) eqn:Hv; case_decide; try congruence.
    rewrite IH, list_to_set_cons, fmap_cons, <- app_assoc. f_equal. set_solver.
Qed.

Lemma extract_visits doc :
  extract doc (document_elements is_wp doc)
  = foldl (extract_node doc) (∅, []) (visit_order doc).
Proof. unfold extract, visit_order, extract_paragraph. rewrite foldl_bind. reflexivity. Qed.

Lemma extract_spec doc :
  extract doc (document_elements is_wp doc)
  = (list_to_set (marked_visits doc), item_of doc <$> marked_visits doc).
Proof.
  rewrite extract_visits, extract_nodes_spec. unfold marked_visits.
  f_equal. set_solver.
Qed.

Lemma write_node_shape pending ts st node :
  shape (write_node pending ts st node).1 = shape st.1.
Proof.
  destruct st as [d t]. unfold write_node. case_bool_decide; [|reflexivity].
  cbn [fst]. destruct (ts !! t) as [s|]; [|reflexivity].
  destruct (Js.truthy s); [apply shape_set_textContent | reflexivity].
Qed.

Lemma write_nodes_shape pending ts visits : forall st,
  shape (foldl (write_node pending ts) st visits).1 = shape st.1.
Proof.
  induction visits as [|v visits IH]; intros st; [reflexivity|].
  cbn [foldl]. rewrite IH. apply write_node_shape.
Qed.

(** The write-back pass meets the nodes in the order of the document it
    started from, although it reads the collections from the document it
    is changing. *)
(** The live loop runs through the whole collection of the paragraph, as
    it was in the document the pass started from: the fuel never runs out
    before the index reaches the end. *)
Lemma write_nodes_fold pending ts doc p fuel : forall i st,
  shape st.1 = shape doc ->
  length (elements_under is_wt doc p) <= i + fuel ->
  write_nodes fuel pending ts p i st
  = foldl (write_node pending ts) st (drop i (elements_under is_wt doc p)).
Proof.
  induction fuel as [|fuel IH]; intros i st Hst Hfuel.
  - rewrite drop_ge by lia. reflexivity.
  - cbn [write_nodes].
    rewrite (elements_under_same_shape is_wt is_wt_shape st.1 doc p Hst).
    destruct (elements_under is_wt doc p !! i) as [node|] eqn:Hnode.
    + rewrite (drop_S _ _ _ Hnode). cbn [foldl].
      apply IH; [rewrite write_node_shape; exact Hst | lia].
    + apply lookup_ge_None in Hnode. rewrite drop_ge by lia. reflexivity.
Qed.

Lemma write_paragraph_fold pending ts doc p st :
  shape st.1 = shape doc ->
  write_paragraph pending ts st p
  = foldl (write_node pending ts) st (elements_under is_wt doc p).
Proof.
  intros Hst. unfold write_paragraph.
  rewrite (write_nodes_fold pending ts doc p) by
    (rewrite ?(elements_under_same_shape is_wt is_wt_shape st.1 doc p Hst); auto; lia).
  reflexivity.
Qed.

Lemma write_paragraphs_visits pending ts doc (paragraphs : list path) : forall st,
  shape st.1 = shape doc ->
  foldl (write_paragraph pending ts) st paragraphs
  = foldl (write_node pending ts) st (paragraphs ≫= elements_under is_wt doc).
Proof.
  induction paragraphs as [|p paragraphs IH]; intros st Hst; [reflexivity|].
  rewrite bind_cons, foldl_app. cbn [foldl].
  rewrite (write_paragraph_fold pending ts doc p st Hst).
  apply IH. rewrite write_nodes_shape. exact Hst.
Qed.

Lemma write_back_visits pending ts doc :
  write_back pending ts doc (document_elements is_wp doc)
  = foldl (write_node pending ts) (doc, 0) (visit_order doc).
Proof. unfold write_back. apply write_paragraphs_visits. reflexivity. Qed.

(** The write-back pass over any sequence of visits whose nodes are
    pending exactly when they are translatable. *)
Lemma write_nodes_spec doc0 (pending : Pending) ts (visits : list path) :
  (forall v, v ∈ visits -> v ∈ pending <-> translatable doc0 v = true) ->
  forall d t,
    foldl (write_node pending ts) (d, t) visits
    = (foldl assign d
         (zip (filter (fun v => translatable doc0 v = true) visits) (drop t ts)),
       t + length (filter (fun v => translatable doc0 v = true) visits)).
Proof.
  induction visits as [|v visits IH]; intros Hpend d t.
  - cbn. rewrite Nat.add_0_r. reflexivity.
  - cbn [foldl]. unfold write_node at 2. rewrite filter_cons.
    assert (Hrest : forall u, u ∈ visits -> u ∈ pending <-> translatable doc0 u = true).
    { intros u Hu. apply Hpend, elem_of_cons. auto. }
    pose proof (Hpend v (proj2 (elem_of_cons _ _ _) (or_introl eq_refl))) as Hv.
    case_bool_decide as Hin; case_decide as Htr; try tauto.
    + rewrite (IH Hrest). cbn [length]. rewrite Nat.add_1_r. f_equal; [|lia].
      destruct (ts !! t) as [s|] eqn:Ht.
      * rewrite (drop_S ts s t Ht). cbn [zip zip_with foldl].
        unfold assign at 2. cbn [fst snd]. reflexivity.
      * apply lookup_ge_None in Ht.
        rewrite !drop_ge by lia. destruct (filter _ visits); reflexivity.
    + apply (IH Hrest).
Qed.

Lemma write_back_spec doc ts :
  write_back (list_to_set (marked_visits doc)) ts doc (document_elements is_wp doc)
  = (foldl assign doc (zip (marked_visits doc) ts), length (marked_visits doc)).
Proof.
  rewrite write_back_visits.
  rewrite (write_nodes_spec doc); [reflexivity|].
  intros v Hv. unfold marked_visits.
  rewrite elem_of_list_to_set, list_elem_of_filter. tauto.
Qed.

End PassLemmas.

Section WriteBackLemmas.

Lemma shape_assigns l : forall doc, shape (foldl assign doc l) = shape doc.
Proof.
  induction l as [|a l IH]; intros doc; [reflexivity|].
  cbn [foldl]. rewrite IH. apply shape_assign.
Qed.

(** A node keeps its text through the assignments that are not for it
    or that are empty. *)
Lemma assigns_keep_text node l : forall doc,
  (forall a, a ∈ l -> a.1 = node -> a.2 = "") ->
  textContent (foldl assign doc l) node = textContent doc node.
Proof.
  induction l as [|a l IH]; intros doc Hl; [reflexivity|].
  cbn [foldl]. rewrite IH by (intros b Hb; apply Hl, elem_of_cons; auto).
  unfold assign. destruct (Js.truthy a.2) eqn:Ha; [|reflexivity].
  apply textContent_set_other. intros Heq.
  rewrite (Hl a) in Ha; [discriminate | apply elem_of_cons; auto | auto].
Qed.

(** A node has the text of the last assignment made for it. *)
Lemma assigns_last_text doc node s l1 l2 :
  (exists t, node_at doc node = Some (WT t)) ->
  s <> "" ->
  (forall a, a ∈ l2 -> a.1 <> node) ->
  textContent (foldl assign doc (l1 ++ (node, s) :: l2)) node = s.
Proof.
  intros Hwt Hs Hl2. rewrite foldl_app. cbn [foldl].
  rewrite assigns_keep_text by (intros a Ha Heq; destruct (Hl2 a Ha Heq)).
  unfold assign. cbn [fst snd]. destruct s as [|c s]; [congruence|]. cbn [Js.truthy].
  destruct (is_wt_node_shape doc (foldl assign doc l1) node) as [t' Ht'];
    [symmetry; apply shape_assigns | exact Hwt |].
  eapply textContent_set_same, Ht'.
Qed.

Lemma marked_visit_is_wt doc node :
  node ∈ marked_visits doc -> exists t, node_at doc node = Some (WT t).
Proof.
  unfold marked_visits, visit_order.
  intros [_ Hv]%list_elem_of_filter.
  apply list_elem_of_bind in Hv as (p & Hv & _).
  apply elements_under_sound in Hv as (m & Hm & Hsel).
  destruct m; try discriminate. eauto.
Qed.

(** The text that the node of visit [k] has in the end, when this visit
    is its last one and its translation is not empty. *)
Lemma zip_last_text doc (nodes : list path) (ts : list string) k node s :
  (forall v, v ∈ nodes -> exists t, node_at doc v = Some (WT t)) ->
  nodes !! k = Some node ->
  ts !! k = Some s ->
  s <> "" ->
  (forall j, k < j -> nodes !! j <> Some node) ->
  textContent (foldl assign doc (zip nodes ts)) node = s.
Proof.
  intros Hwt Hk Hs Hne Hlast.
  assert (Hzip : zip nodes ts !! k = Some (node, s)).
  { apply lookup_zip_with_Some. eauto. }
  rewrite <- (take_drop_middle _ _ _ Hzip).
  apply assigns_last_text; [apply Hwt; eapply list_elem_of_lookup_2, Hk | exact Hne |].
  intros [v s'] Ha Heq. cbn in Heq. subst v.
  apply list_elem_of_lookup_1 in Ha as [j Hj].
  rewrite lookup_drop in Hj.
  apply lookup_zip_with_Some in Hj as (v & s'' & [= <- <-] & Hv & _).
  apply (Hlast (S k + j)); [lia | exact Hv].
Qed.

(** A node keeps its text when every translation at a position where it
    is visited is empty; a node that is never visited does so too. *)
Lemma zip_keep_text doc (nodes : list path) (ts : list string) node :
  (forall j, nodes !! j = Some node -> ts !! j = Some "") ->
  textContent (foldl assign doc (zip nodes ts)) node = textContent doc node.
Proof.
  intros Hempty. apply assigns_keep_text.
  intros [v s] Ha Heq. cbn in Heq. subst v. cbn.
  apply list_elem_of_lookup_1 in Ha as [j Hj].
  apply lookup_zip_with_Some in Hj as (v & s' & [= <- <-] & Hv & Hs').
  rewrite (Hempty j Hv) in Hs'. congruence.
Qed.

End WriteBackLemmas.

Section DocxPipeline.

Context `{Service} `{Browser}.

(** The whole of [translateDocx] on an archive whose document part is not
    empty: the untouched archive when nothing is translatable, else the
    archive whose document part is the serialized document after the
    write-back of what the batch translator returned. *)
Lemma translateDocx_value (archive : gmap string string) config onProgress onLog o docXml :
  archive !! document_xml = Some docXml ->
  docXml <> "" ->
  let doc := parseFromString docXml in
  let nodes := marked_visits doc in
  exists o',
    value_of (translateDocx archive config onProgress onLog o)
    = if length nodes =? 0 then Ok (ZipBlob archive)
      else
        Ok (ZipBlob
              (<[ document_xml :=
                    serializeToString
                      (foldl assign doc
                         (zip nodes
                            (value_of (translateBatch (textContent doc <$> nodes) config
                                         (Some (percent_callback onProgress)) onLog o')))) ]>
                 archive)).
Proof.
  intros Hpart Hne. cbn zeta. unfold translateDocx. eexists.
  rewrite value_bind, Hpart.
  destruct docXml as [|c docXml]; [congruence|].
  change (default "" (Some (String c docXml))) with (String c docXml).
  cbn [Js.truthy negb].
  rewrite extract_spec, <- list_fmap_compose.
  change (TextItem.text ∘ item_of (parseFromString (String c docXml)))
    with (textContent (parseFromString (String c docXml))).
  rewrite value_bind, !length_fmap.
  destruct (length (marked_visits (parseFromString (String c docXml))) =? 0) eqn:Hn.
  - rewrite value_bind. reflexivity.
  - rewrite !value_bind, write_back_spec, value_bind. reflexivity.
Qed.

Lemma translateDocx_without_part (archive : gmap string string) config onProgress onLog o :
  archive !! document_xml = None \/ archive !! document_xml = Some "" ->
  value_of (translateDocx archive config onProgress onLog o)
  = Throw "word/document.xml not found".
Proof.
  intros [Hpart|Hpart]; unfold translateDocx; rewrite value_bind, Hpart; reflexivity.
Qed.

End DocxPipeline.

Section DocxClaims.


(** C10. In the write-back pass, at a marked node whose translated string
    is empty nothing is written and the position index advances by one. So
    a marked node keeps its original text when the translated string at
    each position where it is met is empty (one position, unless paragraphs
    are nested), the index ends at the number of marked nodes, and every
    other marked node still receives the translation at its own position,
    wherever the empty translations are. *)
Theorem empty_translation_keeps_text_and_alignment (doc : xml) (ts : list string) :
  let paragraphs := document_elements is_wp doc in
  let pending := (extract doc paragraphs).1 in
  let nodes := marked_visits doc in
  let final := write_back pending ts doc paragraphs in
  (forall d t node,
     node ∈ pending -> ts !! t = Some "" ->
     write_node pending ts (d, t) node = (d, t + 1))
  /\ final.2 = length nodes
  /\ (forall k node,
        nodes !! k = Some node ->
        ts !! k = Some "" ->
        (forall j, nodes !! j = Some node -> ts !! j = Some "") ->
        textContent final.1 node = textContent doc node)
  /\ (forall k node s,
        nodes !! k = Some node ->
        ts !! k = Some s ->
        s <> "" ->
        (forall j, k < j -> nodes !! j <> Some node) ->
        textContent final.1 node = s).
Proof.
  cbn zeta. rewrite extract_spec. cbn [fst]. rewrite write_back_spec. cbn [fst snd].
  split; [|split; [reflexivity|split]].
  - intros d t node Hin Ht. unfold write_node.
    rewrite bool_decide_eq_true_2 by exact Hin. rewrite Ht. reflexivity.
  - intros k node _ _ Hempty. apply zip_keep_text, Hempty.
  - intros k node s Hk Hs Hne Hlast.
    eapply zip_last_text; eauto using marked_visit_is_wt.
Qed.

End DocxClaims.

(** ** Runs with a translation stub *)

Section StubLemmas.

Variable f : string -> string.

Lemma stub_translateText text config onProgress (t : Z) :
  value_of (@translateText (stub_service f) text config onProgress t)
  = Ok (stub_result f text).
Proof.
  unfold translateText, stub_result. rewrite blank_guard.
  destruct (Js.all_white_space text); [reflexivity|].
  rewrite !value_bind. unfold remote. cbn [create stub_service value_of oracle_of fst snd chunks failure].
  cbn [completion_request user_text req_messages consume_stream Js.or_default].
  rewrite or_else_empty.
  destruct (f text) as [|c s] eqn:Hf; cbn [Js.truthy]; [reflexivity|].
  rewrite value_bind. reflexivity.
Qed.

Lemma attempt_outcome `{Service} onLog config total i text o :
  exists o', (value_of (attempt onLog config total i text o)).2
             = value_of (translateText text config None o').
Proof. unfold attempt. run_through. cbn. eexists. reflexivity. Qed.

Lemma stub_loop config onBatchProgress onLog total rest : forall i results (t : Z),
  value_of (@translateBatch_from (stub_service f) config onBatchProgress onLog
              total i rest results t)
  = results ++ (stub_result f <$> rest).
Proof.
  induction rest as [|text rest IH]; intros i results t.
  - cbn. rewrite app_nil_r. reflexivity.
  - rewrite loop_cons. cbn zeta. unfold value_of at 1. cbn [fst].
    fold (value_of (@translateBatch_from (stub_service f) config onBatchProgress onLog
      total (S i) rest
      (value_of (turn config onBatchProgress onLog total i text results t))
      (oracle_of (turn config onBatchProgress onLog total i text results t)))).
    rewrite IH, turn_value.
    destruct (attempt_outcome (H:=stub_service f) onLog config total i text t) as [t' ->].
    rewrite stub_translateText. cbn [chunk_result fmap list_fmap].
    rewrite <- app_assoc. reflexivity.
Qed.

Lemma stub_batch texts config onBatchProgress onLog (t : Z) :
  value_of (@translateBatch (stub_service f) texts config onBatchProgress onLog t)
  = stub_result f <$> texts.
Proof. unfold translateBatch. rewrite stub_loop. reflexivity. Qed.

End StubLemmas.

(** ** Splitting at blank lines *)

Section SplitLemmas.

Lemma append_cons c s t : String c s +:+ t = String c (s +:+ t).
Proof. reflexivity. Qed.

Lemma append_empty_r s : s +:+ "" = s.
Proof. induction s as [|c s IH]; [reflexivity|]. rewrite append_cons, IH. reflexivity. Qed.

Lemma append_assoc s t u : (s +:+ t) +:+ u = s +:+ t +:+ u.
Proof.
  induction s as [|c s IH]; [reflexivity|]. rewrite !append_cons, IH. reflexivity.
Qed.

(** Inside a text without blank line the scan finds no match. *)
Lemma scan_paragraph p : forall seg tail,
  Js.no_blank_line p = true ->
  Js.split_blank_lines_from seg false (p +:+ tail)
  = Js.split_blank_lines_from (seg +:+ p) false tail.
Proof.
  induction p as [|c p IH]; intros seg tail Hp.
  - rewrite append_empty_r. reflexivity.
  - rewrite append_cons. cbn [Js.split_blank_lines_from].
    destruct p as [|c' p'].
    + cbn [Js.no_blank_line] in Hp. apply negb_true_iff in Hp.
      change ("" +:+ tail) with tail.
      destruct tail as [|c' tail']; [reflexivity|].
      rewrite Hp. reflexivity.
    + cbn [Js.no_blank_line] in Hp. apply andb_true_iff in Hp as [Hcc Hp'].
      apply negb_true_iff in Hcc. rewrite append_cons, Hcc, <- append_cons.
      rewrite (IH _ _ Hp'), append_assoc. reflexivity.
Qed.

(** A run of two or more newlines is one match. *)
Lemma scan_separator seg k tail :
  Js.split_blank_lines_from seg false (Js.newlines (k + 2) +:+ tail)
  = seg :: Js.split_blank_lines_from "" true tail.
Proof.
  replace (k + 2) with (S (S k)) by lia. cbn [Js.newlines].
  rewrite !append_cons. cbn [Js.split_blank_lines_from].
  rewrite Ascii.eqb_refl. cbn [andb]. f_equal.
  induction k as [|k IH]; [reflexivity|].
  cbn [Js.newlines]. rewrite append_cons. cbn [Js.split_blank_lines_from].
  rewrite Ascii.eqb_refl. exact IH.
Qed.

(** After a match the scan goes on as from the start. *)
Lemma scan_resume c s :
  Ascii.eqb c Js.newline = false ->
  Js.split_blank_lines_from "" true (String c s)
  = Js.split_blank_lines_from "" false (String c s).
Proof.
  intros Hc. cbn [Js.split_blank_lines_from]. rewrite Hc.
  destruct s; reflexivity.
Qed.

Lemma split_weave rest : forall p,
  Js.no_blank_line p = true ->
  Forall (fun a => Js.paragraph a.2 = true) rest ->
  Js.split_blank_lines (Js.weave p rest) = p :: rest.*2.
Proof.
  unfold Js.split_blank_lines.
  induction rest as [|[k q] rest IH]; intros p Hp Hrest.
  - cbn [Js.weave]. rewrite <- (append_empty_r p) at 1.
    rewrite scan_paragraph by exact Hp. reflexivity.
  - apply Forall_cons in Hrest as [Hq Hrest]. cbn [Js.weave snd] in *.
    rewrite scan_paragraph, scan_separator by exact Hp.
    change ("" +:+ p) with p. cbn [fmap list_fmap snd]. f_equal.
    destruct q as [|c q']; [discriminate|].
    cbn [Js.paragraph] in Hq. apply andb_true_iff in Hq as [Hc Hq].
    apply negb_true_iff in Hc.
    assert (Hw : exists w, Js.weave (String c q') rest = String c w).
    { destruct rest as [|[k' q''] rest']; cbn [Js.weave]; [eauto|].
      rewrite append_cons. eauto. }
    destruct Hw as [w Hw]. rewrite Hw, (scan_resume c w Hc), <- Hw.
    apply IH; assumption.
Qed.

Lemma join_weave (rest : list (nat * string)) : forall p,
  Js.join (nl +:+ nl) (p :: rest.*2) = Js.weave p ((fun a => (0, a.2)) <$> rest).
Proof.
  induction rest as [|[k q] rest IH]; intros p; [reflexivity|].
  cbn [fmap list_fmap snd Js.weave]. rewrite <- IH. reflexivity.
Qed.

End SplitLemmas.

(** ** The reassemblers of text formats *)

Section TextReassemblers.

Context `{Service} `{Browser}.

Lemma translateMarkdown_value content config onProgress onLog o :
  exists o',
    value_of (translateMarkdown content config onProgress onLog o)
    = TextBlob
        (Js.join paragraph_separator
           (value_of (translateBatch (Js.split_blank_lines content) config
                        (Some (percent_callback onProgress)) onLog o')))
        "text/markdown".
Proof.
  unfold translateMarkdown. run_through. cbn [ret value_of fst].
  eexists. reflexivity.
Qed.

Lemma translatePdfPages_value pages config onProgress onLog o :
  exists o',
    value_of (translatePdfPages pages config onProgress onLog o)
    = TextBlob
        (Js.join page_break
           (value_of (translateBatch pages config
                        (Some (fun '(completed, total) => onProgress (completed, total)))
                        onLog o')))
        "text/plain".
Proof.
  unfold translatePdfPages. run_through. cbn [ret value_of fst].
  eexists. reflexivity.
Qed.

End TextReassemblers.

Section StubReassemblers.

Context `{Browser}.
Variable f : string -> string.

Lemma stub_translateMarkdown content config onProgress onLog (t : Z) :
  value_of (@translateMarkdown (stub_service f) _ content config onProgress onLog t)
  = TextBlob (Js.join paragraph_separator
                (stub_result f <$> Js.split_blank_lines content))
             "text/markdown".
Proof.
  destruct (translateMarkdown_value (H:=stub_service f) content config onProgress onLog t)
    as [t' ->].
  rewrite stub_batch. reflexivity.
Qed.

Lemma stub_translatePdfPages pages config onProgress onLog (t : Z) :
  value_of (@translatePdfPages (stub_service f) pages config onProgress onLog t)
  = TextBlob (Js.join page_break (stub_result f <$> pages)) "text/plain".
Proof.
  destruct (translatePdfPages_value (H:=stub_service f) pages config onProgress onLog t)
    as [t' ->].
  rewrite stub_batch. reflexivity.
Qed.

End StubReassemblers.

Section TextClaims.

(** C5. The Markdown reassembler cuts its input at the runs of two or
    more newlines and joins the translated paragraphs with one double
    newline. Its result is the join, by a double newline, of what the batch
    translator returns for the pieces of the split; a text made of
    paragraphs with a run of two or more newlines between each two splits
    into exactly these paragraphs, and their join has every run brought
    down to two newlines. The input "A\n\nB\n\n\nC" splits into the three
    paragraphs "A", "B" and "C", and with the identity as translation the
    result for any input is the join of its pieces, which for this input is
    "A\n\nB\n\nC". *)
Theorem markdown_split_and_rejoin :
  (forall (service : Service) (browser : Browser) content config onProgress onLog
          (o : Oracle),
     exists o',
       value_of (translateMarkdown content config onProgress onLog o)
       = TextBlob
           (Js.join (nl +:+ nl)
              (value_of (translateBatch (Js.split_blank_lines content) config
                           (Some (percent_callback onProgress)) onLog o')))
           "text/markdown")
  /\ (forall p (rest : list (nat * string)),
        Js.paragraph p = true ->
        Forall (fun a => Js.paragraph a.2 = true) rest ->
        Js.split_blank_lines (Js.weave p rest) = p :: rest.*2
        /\ Js.join (nl +:+ nl) (p :: rest.*2)
           = Js.weave p ((fun a => (0, a.2)) <$> rest))
  /\ Js.split_blank_lines sample_markdown = ["A"; "B"; "C"]
  /\ (forall (browser : Browser) content config onProgress onLog (t : Z),
        value_of (@translateMarkdown (stub_service (fun text => text)) browser
                    content config onProgress onLog t)
        = TextBlob (Js.join (nl +:+ nl) (Js.split_blank_lines content)) "text/markdown")
  /\ (forall (browser : Browser) config onProgress onLog (t : Z),
        value_of (@translateMarkdown (stub_service (fun text => text)) browser
                    sample_markdown config onProgress onLog t)
        = TextBlob sample_markdown_normal "text/markdown").
Proof.
  assert (Hid : forall l : list string, stub_result (fun text => text) <$> l = l).
  { intros l. induction l as [|x l IH]; [reflexivity|].
    cbn. rewrite IH. unfold stub_result. destruct (Js.all_white_space x); reflexivity. }
  split; [intros; apply translateMarkdown_value|].
  split.
  { intros p rest Hp Hrest. split; [|apply join_weave].
    apply split_weave; [|exact Hrest].
    destruct p; [discriminate|]. cbn [Js.paragraph] in Hp.
    apply andb_true_iff in Hp. tauto. }
  split; [reflexivity|].
  split; intros; rewrite stub_translateMarkdown, Hid; reflexivity.
Qed.


End TextClaims.

(** ** The document parser *)

Section ParserClaims.

Context `{Libraries}.

Lemma getFileType_cases filename :
  match getFileType filename with
  | docx => extension filename = Some "docx"
  | pdf => extension filename = Some "pdf"
  | md => extension filename = Some "md" \/ extension filename = Some "markdown"
  | txt => extension filename <> Some "docx" /\ extension filename <> Some "pdf"
           /\ extension filename <> Some "md" /\ extension filename <> Some "markdown"
  end.
Proof.
  unfold getFileType. fold (extension filename).
  repeat case_bool_decide; cbn [orb]; tauto.
Qed.

Lemma parseDocx_throws buffer e :
  parseDocx buffer = Throw e <->
  zip_loadAsync buffer = Throw e
  \/ exists zip, zip_loadAsync buffer = Ok zip
                 /\ (zip !! document_xml = None \/ zip !! document_xml = Some "")
                 /\ e = "Invalid DOCX file".
Proof.
  unfold parseDocx. destruct (zip_loadAsync buffer) as [zip|e'].
  - destruct (zip !! document_xml) as [[|c s]|] eqn:Hpart; cbn; split;
      try discriminate; try (intros [= <-]; right; eauto 6);
      intros [?|(zip' & [= <-] & [Hp|Hp] & ->)]; congruence.
  - split; [intros [= ->]; auto|].
    intros [?|(zip & ? & _)]; congruence.
Qed.

Lemma parsePdf_throws buffer e :
  parsePdf buffer = Throw e <-> pdf_getDocument buffer = Throw e.
Proof.
  unfold parsePdf. destruct (pdf_getDocument buffer) as [pdf_pages|e'].
  - destruct (parsePdf_pages pdf_pages "" []). split; discriminate.
  - split; congruence.
Qed.

(** C8, as amended. [parseDocument] never fails for want of a supported
    format: for every file whose extension (the text after the last dot
    of its name, the whole name when it has no dot), in lower case, is
    none of docx, pdf, md and markdown, the file is taken as plain text
    ([txt]) and its entire content is the parsed text. A parse fails only
    for a file taken as DOCX, when the archive library cannot load its
    bytes or when the part word/document.xml of the archive is missing or
    empty (the error "Invalid DOCX file"), and for a file taken as PDF
    that the PDF library cannot load. *)
Theorem parseDocument_accepts_unknown_formats (file : File.t) :
  let ext := extension (File.name file) in
  (ext <> Some "docx" -> ext <> Some "pdf" -> ext <> Some "md" ->
   ext <> Some "markdown" ->
   parseDocument file = Ok (text_document txt (File.text file)))
  /\ (forall e,
        parseDocument file = Throw e <->
        (ext = Some "docx"
         /\ (zip_loadAsync (File.arrayBuffer file) = Throw e
             \/ exists zip,
                  zip_loadAsync (File.arrayBuffer file) = Ok zip
                  /\ (zip !! document_xml = None \/ zip !! document_xml = Some "")
                  /\ e = "Invalid DOCX file"))
        \/ (ext = Some "pdf" /\ pdf_getDocument (File.arrayBuffer file) = Throw e)).
Proof.
  cbn zeta. pose proof (getFileType_cases (File.name file)) as Hcases.
  unfold parseDocument.
  destruct (getFileType (File.name file)); split.
  - tauto.
  - intros e. rewrite parseDocx_throws. split; [tauto|].
    intros [[_ ?]|[Hpdf _]]; [assumption | congruence].
  - destruct Hcases; tauto.
  - intros e. split; [discriminate|].
    intros [[? _]|[? _]]; destruct Hcases; congruence.
  - tauto.
  - intros e. rewrite parsePdf_throws. split; [tauto|].
    intros [[Hdocx _]|[_ ?]]; [congruence | assumption].
  - reflexivity.
  - intros e. split; [discriminate|].
    intros [[? _]|[? _]]; tauto.
Qed.

End ParserClaims.

(** ** The download of a result *)

Section DownloadClaims.

(** C9, at a translated PDF. For the file "report.pdf" of type
    application/pdf, [downloadFile] saves the result under the name
    "translated_report.pdf.txt": the extension is "txt", but what stands
    before it is the whole file name, not its stem "report", because the
    extension is replaced by "txt" before it is cut from the name. *)
Theorem download_name_of_pdf_keeps_pdf :
  downloadFile sample_pdf_item
  = Some (TextBlob "PAGE ONE" "text/plain", "translated_report.pdf.txt")
  /\ download_name "report.pdf" "application/pdf"
     <> "translated_" +:+ "report" +:+ "." +:+ "txt".
Proof. split; [reflexivity | discriminate]. Qed.

(** Away from PDF the name is cut at the first occurrence of the
    extension, which need not be the last. *)
Example download_name_docx :
  download_name "report.docx" "" = "translated_report.docx".
Proof. reflexivity. Qed.

Example download_name_first_occurrence :
  download_name "a.mdx.md" "text/markdown" = "translated_ax.md.md".
Proof. reflexivity. Qed.

End DownloadClaims.

(** ** The model at work *)

Section Examples.

Example streamed_answer :
  @translateText scripted_service "hi" sample_config (Some record_partial)
    [ {| chunks := [Some "Bon"; None; Some ""; Some "jour"]; failure := None |} ]
  = (Ok "Bonjour",
     [ RemoteCall (completion_request "hi" sample_config);
       Partial "Bon"; Partial "Bonjour" ],
     []).
Proof. reflexivity. Qed.

Example broken_stream :
  value_of (@translateText scripted_service "hi" sample_config None
              [ {| chunks := [Some "Bon"]; failure := Some "" |} ])
  = Throw "Translation failed".
Proof. reflexivity. Qed.

Example batch_with_a_refusal :
  omap (fun e => match e with RemoteCall _ => None | _ => Some e end)
    (trace_of (@translateBatch scripted_service three_chunks sample_config
                 (Some record_batch_progress) (Some record_log) second_refused))
  = [ Log (MsgBatchStart 1 3 "one") info None;
      Log (MsgBatchDone 1 3) success (Some 0%Z);
      BatchProgress 1 3;
      Log (MsgBatchStart 2 3 "two") info None;
      ConsoleError TranslationError "quota";
      ConsoleError (FailedChunk 1) "quota";
      Log (MsgBatchFailed 2 3 "quota") error (Some 0%Z);
      Log (MsgBatchStart 3 3 "three") info None;
      Log (MsgBatchDone 3 3) success (Some 0%Z);
      BatchProgress 3 3 ].
Proof. reflexivity. Qed.

Example preview_of_a_long_text :
  previewText ("0123456789012345678901234567" +:+ nl +:+ "9012345")
  = "0123456789012345678901234567 9...".
Proof. reflexivity. Qed.

Example file_types :
  getFileType <$> ["a.DOCX"; "README"; "notes.markdown"; "docx"; "x.tar.gz"; "scan.Pdf"]
  = [docx; txt; md; docx; txt; pdf].
Proof. reflexivity. Qed.

Example blank_lines_at_the_ends :
  Js.split_blank_lines (nl +:+ nl +:+ "A" +:+ nl +:+ "B" +:+ nl +:+ nl)
  = [""; "A" +:+ nl +:+ "B"; ""].
Proof. reflexivity. Qed.

Example visits_of_the_sample :
  textContent sample_document <$> visit_order sample_document
  = ["Hello"; "  "; "world"; "Outer"; "boxed"; "boxed"].
Proof. reflexivity. Qed.

Example docx_end_to_end :
  value_of (@translateDocx (stub_service uppercase) sample_browser
              {[ document_xml := "<w:document/>" ]} sample_config
              record_percent (Some record_log) 0%Z)
  = Ok (ZipBlob
          {[ document_xml :=
               "<x><x><w:p><x><w:t>HELLO</w:t></x><x><w:t>  </w:t></x><x><w:t>WORLD</w:t></x></w:p><w:p><x><w:t>OUTER</w:t><x><w:p><x><w:t>BOXED</w:t></x></w:p></x></x></w:p></x></x>" ]}).
Proof. reflexivity. Qed.

Example pdf_pages_of_the_parser :
  @parsePdf (fixed_libraries (Throw "") (Ok [["Hello"; "world"]; ["Second"; "page"]])) []
  = Ok {| ParsedDocument.type := pdf;
          ParsedDocument.content := "Hello world" +:+ nl +:+ nl +:+ "Second page" +:+ nl +:+ nl;
          ParsedDocument.originalData := OfBuffer [];
          ParsedDocument.structure := None;
          ParsedDocument.pages := Some ["Hello world"; "Second page"] |}.
Proof. reflexivity. Qed.

End Examples.

(** ** The claims at concrete inputs *)

Section Instances.

Lemma translateText_blank_is_noop_witness :
  Js.all_white_space "  " = true
  /\ @translateText scripted_service "  " sample_config None second_refused
     = (Ok "  ", [], second_refused).
Proof.
  split; [reflexivity|].
  apply (translateText_blank_is_noop (H:=scripted_service)). reflexivity.
Defined.



(** C3, at a batch with a failing chunk. For the three chunks "one", "two",
    "three", of which the service refuses the second, the batch returns
    three results, the second being the chunk "two" itself, and the
    progress callback is called twice, with 1 of 3 and 3 of 3: there is no
    call for the chunk resolved by the fallback, and the counts do not go
    up by one. For one chunk that is refused there is no call at all, so
    no final call reporting the number of chunks. *)
Theorem progress_skips_fallback_chunks :
  value_of (@translateBatch scripted_service three_chunks sample_config
              (Some record_batch_progress) None second_refused)
  = ["un"; "two"; "trois"]
  /\ progress_calls
       (trace_of (@translateBatch scripted_service three_chunks sample_config
                    (Some record_batch_progress) None second_refused))
     = [(1, 3); (3, 3)]
  /\ value_of (@translateBatch scripted_service ["hello"] sample_config
                 (Some record_batch_progress) None [refusal "quota"])
     = ["hello"]
  /\ progress_calls
       (trace_of (@translateBatch scripted_service ["hello"] sample_config
                    (Some record_batch_progress) None [refusal "quota"]))
     = [].
Proof. repeat split; reflexivity. Qed.

(** A text for C5: three paragraphs and the runs between them. *)
Lemma markdown_split_and_rejoin_witness :
  Js.paragraph "A" = true
  /\ Forall (fun a => Js.paragraph a.2 = true) [(0, "B"); (1, "C")]
  /\ Js.weave "A" [(0, "B"); (1, "C")] = sample_markdown
  /\ Js.split_blank_lines (Js.weave "A" [(0, "B"); (1, "C")]) = ["A"; "B"; "C"].
Proof.
  split; [reflexivity|].
  assert (Hrest : Forall (fun a : nat * string => Js.paragraph a.2 = true)
                    [(0, "B"); (1, "C")]).
  { repeat constructor. }
  split; [exact Hrest|]. split; [reflexivity|].
  apply (proj1 (proj2 markdown_split_and_rejoin) "A" [(0, "B"); (1, "C")]
           eq_refl Hrest).
Defined.



Lemma empty_translation_keeps_text_and_alignment_witness :
  marked_visits sample_document !! 2 = Some [0; 1; 0; 0]
  /\ ["HELLO"; "WORLD"; ""; "B1"; "B2"] !! 2 = Some ""
  /\ textContent
       (write_back (extract sample_document (document_elements is_wp sample_document)).1
          ["HELLO"; "WORLD"; ""; "B1"; "B2"] sample_document
          (document_elements is_wp sample_document)).1
       [0; 1; 0; 0]
     = "Outer".
Proof.
  split; [reflexivity|]. split; [reflexivity|].
  apply (proj1 (proj2 (proj2
           (empty_translation_keeps_text_and_alignment sample_document
              ["HELLO"; "WORLD"; ""; "B1"; "B2"])))
           2 [0; 1; 0; 0]);
    [reflexivity | reflexivity |].
  intros j Hj. do 5 (destruct j as [|j]; [first [reflexivity | discriminate]|]).
  discriminate.
Defined.

(** C8 as stated fails: a DOCX archive that has its word/document.xml
    part, empty, is rejected at parse time. *)
Lemma docx_with_empty_part_is_rejected :
  is_Some (empty_part_archive !! document_xml)
  /\ @parseDocument (fixed_libraries (Ok empty_part_archive) (Ok [])) sample_docx_file
     = Throw "Invalid DOCX file".
Proof. split; [eexists|]; reflexivity. Qed.

Lemma parseDocument_accepts_unknown_formats_witness :
  extension "table.CSV" = Some "csv"
  /\ @parseDocument (fixed_libraries (Throw "no archive") (Throw "no pdf")) sample_csv_file
     = Ok (text_document txt "a,b").
Proof.
  split; [reflexivity|].
  apply (proj1 (parseDocument_accepts_unknown_formats
                  (H:=fixed_libraries (Throw "no archive") (Throw "no pdf"))
                  sample_csv_file)); discriminate.
Defined.

End Instances.

(** * Further properties of the code *)

(** ** The user store *)

Section AuthLemmas.

Import authService.

Lemma find_none_forall {A} (p : A -> bool) (l : list A) :
  List.find p l = None <-> Forall (fun x => p x = false) l.
Proof.
  induction l as [|x l IH]; cbn.
  - split; [constructor | reflexivity].
  - destruct (p x) eqn:Hx.
    + split; [discriminate|]. intros Hall. apply Forall_cons in Hall as [Hx' _]. congruence.
    + rewrite IH. split; [intros; constructor; assumption|].
      intros Hall. apply Forall_cons in Hall as [_ Hl]. exact Hl.
Qed.

Lemma find_app_last {A} (p : A -> bool) (l : list A) (x : A) :
  Forall (fun y => p y = false) l -> p x = true -> List.find p (l ++ [x]) = Some x.
Proof.
  induction 1 as [|y l Hy Hl IH]; intros Hx; cbn; [rewrite Hx; reflexivity|].
  rewrite Hy. apply IH, Hx.
Qed.

Lemma find_some_elem {A} (p : A -> bool) (l : list A) (x : A) :
  List.find p l = Some x -> x ∈ l /\ p x = true.
Proof.
  induction l as [|y l IH]; cbn; [discriminate|].
  destruct (p y) eqn:Hy.
  - intros [= <-]. split; [apply elem_of_cons; auto | exact Hy].
  - intros Hx. destruct (IH Hx). split; [apply elem_of_cons; auto | assumption].
Qed.

(** [find] and [findIndex] with the same test stop at the same element. *)
Lemma find_findIndex (P : User.t -> Prop) `{forall u, Decision (P u)} (l : list User.t) u :
  List.find (fun u => bool_decide (P u)) l = Some u ->
  exists i, list_find P l = Some (i, u).
Proof.
  induction l as [|y l IH]; cbn; [discriminate|].
  case_bool_decide as Hy.
  - intros [= <-]. exists 0. cbn. rewrite decide_True by assumption. reflexivity.
  - intros Hu. destruct (IH Hu) as [i Hi]. exists (S i).
    cbn. rewrite decide_False by assumption. rewrite Hi. reflexivity.
Qed.

Lemma existsb_email_false email (users : list User.t) :
  Forall (fun u => User.email u <> email) users ->
  existsb (fun u => bool_decide (User.email u = email)) users = false.
Proof.
  induction 1 as [|u users Hu Hl IH]; [reflexivity|].
  cbn. rewrite bool_decide_eq_false_2 by assumption. exact IH.
Qed.

End AuthLemmas.

Section AuthProperties.

Import authService.

Lemma register_fresh_run (email password : string) (rememberMe : bool)
    (fresh_id : string) (now : Z) (st : Storage) :
  Forall (fun u => User.email u <> email) (getUsers st) ->
  let done := register email password rememberMe fresh_id now st in
  done.1 = Resolved (newUser email fresh_id now None)
  /\ getUsers done.2 = getUsers st ++ [newUser email fresh_id now (Some password)]
  /\ (local_current done.2, session_current done.2)
     = (if rememberMe then (Some fresh_id, None) else (None, Some fresh_id))
  /\ (Js.truthy fresh_id = true ->
      Forall (fun u => User.id u <> fresh_id) (getUsers st) ->
      getCurrentUser done.2 = Some (newUser email fresh_id now (Some password))).
Proof.
  intros Hfree. cbn zeta. unfold register.
  rewrite (existsb_email_false _ _ Hfree). unfold login.
  change (getUsers (saveUsers ?l st)) with l.
  assert (Hfind : List.find
            (fun u => bool_decide (User.email u = email)
                      && bool_decide (User._password u = Some password))
            (getUsers st ++ [newUser email fresh_id now (Some password)])
          = Some (newUser email fresh_id now (Some password))).
  { apply find_app_last.
    - eapply Forall_impl; [exact Hfree|]. intros u Hu. cbn.
      rewrite bool_decide_eq_false_2 by assumption. reflexivity.
    - cbn. rewrite !bool_decide_eq_true_2 by reflexivity. reflexivity. }
  rewrite Hfind. cbn [fst snd].
  repeat split.
  - destruct rememberMe; reflexivity.
  - destruct rememberMe; reflexivity.
  - intros Hid Hnew. unfold getCurrentUser.
    assert (Hcur : List.find (fun u => bool_decide (User.id u = fresh_id))
                     (getUsers st ++ [newUser email fresh_id now (Some password)])
                   = Some (newUser email fresh_id now (Some password))).
    { apply find_app_last.
      - eapply Forall_impl; [exact Hnew|]. intros u Hu. cbn.
        apply bool_decide_eq_false_2, Hu.
      - apply bool_decide_eq_true_2. reflexivity. }
    destruct fresh_id as [|c fresh]; [discriminate|].
    destruct rememberMe; exact Hcur.
Qed.

(** X1. When no stored user has the e-mail, [register] resolves with the
    new user (the name is the e-mail up to its first at sign, no password
    in the object returned), appends the new user with its password after
    the users already stored, and logs it in: the id is kept in
    [localStorage] when the session is to be remembered and in
    [sessionStorage] otherwise, never in both; and when the id drawn is not
    empty and not the id of a stored user, [getCurrentUser] then finds the
    new user. *)
Theorem register_appends_and_logs_in (email password : string) (rememberMe : bool)
    (fresh_id : string) (now : Z) (st : Storage) :
  Forall (fun u => User.email u <> email) (getUsers st) ->
  let done := register email password rememberMe fresh_id now st in
  done.1 = Resolved (newUser email fresh_id now None)
  /\ getUsers done.2 = getUsers st ++ [newUser email fresh_id now (Some password)]
  /\ (local_current done.2, session_current done.2)
     = (if rememberMe then (Some fresh_id, None) else (None, Some fresh_id))
  /\ (Js.truthy fresh_id = true ->
      Forall (fun u => User.id u <> fresh_id) (getUsers st) ->
      getCurrentUser done.2 = Some (newUser email fresh_id now (Some password))).
Proof. apply register_fresh_run. Qed.

(** X2. When a stored user already has the e-mail, [register] rejects with
    the error of the taken e-mail and leaves the storage as it was: no user
    is added and the current user is not changed. *)
Theorem register_rejects_taken_email (email password : string) (rememberMe : bool)
    (fresh_id : string) (now : Z) (st : Storage) (u : User.t) :
  u ∈ getUsers st ->
  User.email u = email ->
  register email password rememberMe fresh_id now st = (Rejected EmailTaken, st).
Proof.
  intros Hin Hu. unfold register.
  assert (Hex : existsb (fun u => bool_decide (User.email u = email)) (getUsers st) = true).
  { apply existsb_exists. exists u. split; [apply list_elem_of_In, Hin|].
    apply bool_decide_eq_true_2, Hu. }
  rewrite Hex. reflexivity.
Qed.

Lemma login_run (email password : string) (rememberMe : bool)
    (st : Storage) :
  match login email password rememberMe st with
  | (Resolved u, st') =>
      u ∈ getUsers st
      /\ User.email u = email
      /\ User._password u = Some password
      /\ getUsers st' = getUsers st
      /\ (local_current st', session_current st')
         = (if rememberMe then (Some (User.id u), None) else (None, Some (User.id u)))
  | (Rejected reason, st') =>
      reason = BadCredentials
      /\ st' = st
      /\ Forall (fun u => ~ (User.email u = email /\ User._password u = Some password))
           (getUsers st)
  end.
Proof.
  unfold login.
  destruct (List.find _ (getUsers st)) as [u|] eqn:Hfind.
  - apply find_some_elem in Hfind as [Hin Hu].
    apply andb_true_iff in Hu as [He Hp].
    apply bool_decide_eq_true_1 in He. apply bool_decide_eq_true_1 in Hp.
    repeat split; try assumption; destruct rememberMe; reflexivity.
  - apply find_none_forall in Hfind. repeat split.
    eapply Forall_impl; [exact Hfind|]. cbn. intros u Hu [He Hp].
    rewrite !bool_decide_eq_true_2 in Hu by assumption. discriminate.
Qed.


(** X4. After a login that resolves with the user [u], [getCurrentUser]
    finds [u] again, with or without [rememberMe], provided that the id of
    [u] is not empty and that no user stored before [u] has the same id. *)
Theorem login_then_current_user (email password : string) (rememberMe : bool)
    (st st' : Storage) (u : User.t) :
  login email password rememberMe st = (Resolved u, st') ->
  Js.truthy (User.id u) = true ->
  List.find (fun v => bool_decide (User.id v = User.id u)) (getUsers st) = Some u ->
  getCurrentUser st' = Some u.
Proof.
  intros Hlogin Hid Hfirst.
  pose proof (login_run email password rememberMe st) as Hspec.
  rewrite Hlogin in Hspec. destruct Hspec as (_ & _ & _ & Husers & Hcur).
  unfold getCurrentUser. rewrite Husers.
  destruct (User.id u) as [|c s] eqn:Hu; [discriminate|].
  destruct rememberMe; injection Hcur as -> ->; cbn; exact Hfirst.
Qed.

(** X5. After [logout] there is no current user, whatever the storage
    held, so [updateSettings] rejects; the stored users are the same as
    before, and a login resolves after the logout with the same user and
    the same storage as it does without it: nothing of the earlier session
    is left. *)
Theorem logout_forgets_current_user (st : Storage) :
  getCurrentUser (logout st) = None
  /\ getUsers (logout st) = getUsers st
  /\ (forall settings,
        updateSettings settings (logout st) = (Rejected NotLoggedIn, logout st))
  /\ (forall email password rememberMe u st',
        login email password rememberMe st = (Resolved u, st') ->
        login email password rememberMe (logout st) = (Resolved u, st')
        /\ getCurrentUser (logout st') = None).
Proof.
  split; [reflexivity|]. split; [reflexivity|]. split; [reflexivity|].
  intros email password rememberMe u st'. unfold login.
  change (getUsers (logout st)) with (getUsers st).
  destruct (List.find _ (getUsers st)) as [found|]; [|discriminate].
  intros [= <- <-]. split; [|reflexivity]. destruct rememberMe; reflexivity.
Qed.

Lemma current_user_found st cur :
  getCurrentUser st = Some cur ->
  exists i, list_find (fun u => User.id u = User.id cur) (getUsers st) = Some (i, cur).
Proof.
  unfold getCurrentUser. intros Hcur.
  assert (Hfind : exists userId,
    List.find (fun u => bool_decide (User.id u = userId)) (getUsers st) = Some cur).
  { destruct (local_current st) as [l|]; [destruct (Js.truthy l) eqn:Hl|];
      [ rewrite Hl in Hcur; eauto | |];
      (destruct (session_current st) as [s0|]; [|discriminate]);
      (destruct (Js.truthy s0); [eauto | discriminate]). }
  destruct Hfind as [userId Hfind].
  pose proof (find_some_elem _ _ _ Hfind) as [_ Hid].
  apply bool_decide_eq_true_1 in Hid. rewrite Hid.
  apply (find_findIndex (fun u => User.id u = userId)), Hfind.
Qed.

Lemma updateSettings_run (settings : Settings.t) (st : Storage) :
  match updateSettings settings st with
  | (Resolved u, st') =>
      exists cur i,
        getCurrentUser st = Some cur
        /\ u = merge cur settings
        /\ getUsers st !! i = Some cur
        /\ getUsers st' = <[ i := u ]> (getUsers st)
        /\ length (getUsers st') = length (getUsers st)
        /\ (forall j, j <> i -> getUsers st' !! j = getUsers st !! j)
        /\ (User.id u, User.email u, User.name u, User.createdAt u, User._password u)
           = (User.id cur, User.email cur, User.name cur, User.createdAt cur,
              User._password cur)
        /\ local_current st' = local_current st
        /\ session_current st' = session_current st
  | (Rejected reason, st') =>
      reason = NotLoggedIn /\ getCurrentUser st = None /\ st' = st
  end.
Proof.
  unfold updateSettings.
  destruct (getCurrentUser st) as [cur|] eqn:Hcur; [|auto].
  destruct (current_user_found st cur Hcur) as [i Hi]. rewrite Hi.
  apply list_find_Some in Hi as (Hlook & _ & _).
  exists cur, i. change (getUsers (saveUsers ?l st)) with l.
  repeat split; try assumption; try reflexivity.
  - apply length_insert.
  - intros j Hj. apply list_lookup_insert_ne. congruence.
Qed.

(** X6. [updateSettings] rejects only when there is no current user, and
    then changes nothing: the error of the missing user is never raised.
    Otherwise it resolves with the record of the current user in which the
    keys given in the settings are replaced, writes this record at the place
    of the current user and leaves every other user, the number of users
    and the stored ids of the current user as they are; the id, e-mail,
    name, creation time and password of the record do not change. *)
Theorem updateSettings_changes_only_current_user (settings : Settings.t) (st : Storage) :
  match updateSettings settings st with
  | (Resolved u, st') =>
      exists cur i,
        getCurrentUser st = Some cur
        /\ u = merge cur settings
        /\ getUsers st !! i = Some cur
        /\ getUsers st' = <[ i := u ]> (getUsers st)
        /\ length (getUsers st') = length (getUsers st)
        /\ (forall j, j <> i -> getUsers st' !! j = getUsers st !! j)
        /\ (User.id u, User.email u, User.name u, User.createdAt u, User._password u)
           = (User.id cur, User.email cur, User.name cur, User.createdAt cur,
              User._password cur)
        /\ local_current st' = local_current st
        /\ session_current st' = session_current st
  | (Rejected reason, st') =>
      reason = NotLoggedIn /\ getCurrentUser st = None /\ st' = st
  end.
Proof. apply updateSettings_run. Qed.

(** X7. After [updateSettings] has resolved with a record, [getCurrentUser]
    returns this very record: the settings saved are the settings read
    back, and a key given with a value has this value. *)
Theorem updateSettings_then_current_user (settings : Settings.t) (st st' : Storage)
    (u : User.t) :
  updateSettings settings st = (Resolved u, st') ->
  getCurrentUser st' = Some u
  /\ (forall v, Settings.apiKey settings = Given v -> User.apiKey u = v)
  /\ (forall v, Settings.model settings = Given v -> User.model u = v)
  /\ (forall v, Settings.baseUrl settings = Given v -> User.baseUrl u = v)
  /\ (forall v, Settings.customModelName settings = Given v -> User.customModelName u = v).
Proof.
  intros Hupd. unfold updateSettings in Hupd.
  destruct (getCurrentUser st) as [cur|] eqn:Hcur; [|discriminate].
  destruct (current_user_found st cur Hcur) as [i Hi]. rewrite Hi in Hupd.
  injection Hupd as <- <-.
  apply list_find_Some in Hi as (Hlook & _ & Hbefore).
  split; [|repeat split; intros v Hv; cbn; rewrite Hv; reflexivity].
  unfold getCurrentUser in *. cbn [local_current session_current saveUsers].
  change (getUsers (saveUsers ?l st)) with l.
  assert (Hsame : forall userId,
    List.find (fun u => bool_decide (User.id u = userId)) (getUsers st) = Some cur ->
    List.find (fun u => bool_decide (User.id u = userId))
      (<[ i := merge cur settings ]> (getUsers st)) = Some (merge cur settings)).
  { intros userId Hfind.
    pose proof (find_some_elem _ _ _ Hfind) as [_ Hid].
    apply bool_decide_eq_true_1 in Hid. subst userId.
    clear Hfind Hcur. revert i Hlook Hbefore.
    induction (getUsers st) as [|y l IH]; intros i Hlook Hbefore; [discriminate|].
    destruct i as [|i]; cbn.
    - rewrite bool_decide_eq_true_2 by reflexivity. reflexivity.
    - rewrite bool_decide_eq_false_2 by (apply (Hbefore 0 y); [reflexivity | lia]).
      apply IH; [exact Hlook|].
      intros j z Hz Hj. apply (Hbefore (S j) z); [exact Hz | lia]. }
  destruct (local_current st) as [l|]; [destruct (Js.truthy l) eqn:Hl|];
    [ rewrite Hl in Hcur |- *; apply Hsame, Hcur | |];
    (destruct (session_current st) as [s0|]; [|discriminate]);
    (destruct (Js.truthy s0); [apply Hsame, Hcur | discriminate]).
Qed.

Lemma emails_insert_merge (users : list User.t) i cur settings :
  users !! i = Some cur ->
  User.email <$> <[ i := merge cur settings ]> users = User.email <$> users.
Proof.
  intros Hlook. rewrite list_fmap_insert. apply list_insert_id.
  rewrite list_lookup_fmap, Hlook. reflexivity.
Qed.

(** X8. The service keeps the e-mails of the stored users distinct: if
    they are distinct before [register], [login], [logout] or
    [updateSettings], they are distinct afterwards, whether the operation
    resolves or rejects; [updateSettings] does not even change the list of
    the e-mails. *)
Theorem emails_stay_unique (st : Storage) :
  NoDup (User.email <$> getUsers st) ->
  (forall email password rememberMe fresh_id now,
     NoDup (User.email <$> getUsers (register email password rememberMe fresh_id now st).2))
  /\ (forall email password rememberMe,
        NoDup (User.email <$> getUsers (login email password rememberMe st).2))
  /\ NoDup (User.email <$> getUsers (logout st))
  /\ (forall settings,
        User.email <$> getUsers (updateSettings settings st).2
        = User.email <$> getUsers st).
Proof.
  intros Hnodup. repeat split.
  - intros email password rememberMe fresh_id now.
    destruct (existsb (fun u => bool_decide (User.email u = email)) (getUsers st)) eqn:Hex.
    + unfold register. rewrite Hex. exact Hnodup.
    + assert (Hfree : Forall (fun u => User.email u <> email) (getUsers st)).
      { apply Forall_forall. intros u Hu Heq.
        assert (existsb (fun u => bool_decide (User.email u = email)) (getUsers st) = true)
          as Htrue; [|congruence].
        apply existsb_exists. exists u. split; [apply list_elem_of_In, Hu|].
        apply bool_decide_eq_true_2, Heq. }
      destruct (register_fresh_run email password rememberMe fresh_id now st Hfree)
        as (_ & -> & _).
      rewrite fmap_app. apply NoDup_app. split; [exact Hnodup|]. split.
      * intros e He Hin. apply list_elem_of_singleton in Hin. subst e.
        apply list_elem_of_fmap in He as (u & Hu & Hin).
        rewrite Forall_forall in Hfree. apply (Hfree u Hin). symmetry. exact Hu.
      * apply NoDup_singleton.
  - intros email password rememberMe.
    pose proof (login_run email password rememberMe st) as Hspec.
    destruct (login email password rememberMe st) as [[u|reason] st']; cbn [snd].
    + destruct Hspec as (_ & _ & _ & -> & _). exact Hnodup.
    + destruct Hspec as (_ & -> & _). exact Hnodup.
  - exact Hnodup.
  - intros settings.
    pose proof (updateSettings_run settings st) as Hspec.
    destruct (updateSettings settings st) as [[u|reason] st']; cbn [snd].
    + destruct Hspec as (cur & i & _ & -> & Hlook & -> & _).
      apply emails_insert_merge, Hlook.
    + destruct Hspec as (_ & _ & ->). reflexivity.
Qed.

End AuthProperties.

(** ** The translation client, further *)

Section ClientProperties.

Context `{Service}.

Lemma consume_stream_run stream : forall acc o,
  consume_stream (Some record_partial) stream acc o
  = (grown acc (contents stream), Partial <$> growing acc (contents stream), o).
Proof.
  unfold contents, grown.
  induction stream as [|chunk stream IH]; intros acc o; [reflexivity|].
  cbn [consume_stream fmap list_fmap]. rewrite filter_cons.
  destruct (Js.truthy (Js.or_default chunk "")) eqn:Hc.
  - rewrite decide_True by reflexivity.
    rewrite run_bind. cbn [record_partial call_opt emit value_of trace_of oracle_of fst snd].
    rewrite IH. reflexivity.
  - rewrite decide_False by congruence. apply IH.
Qed.

Lemma consume_stream_value onProgress stream : forall acc o,
  value_of (consume_stream onProgress stream acc o) = grown acc (contents stream).
Proof.
  unfold contents, grown.
  induction stream as [|chunk stream IH]; intros acc o; [reflexivity|].
  cbn [consume_stream fmap list_fmap]. rewrite filter_cons.
  destruct (Js.truthy (Js.or_default chunk "")) eqn:Hc.
  - rewrite decide_True by reflexivity. rewrite value_bind. apply IH.
  - rewrite decide_False by congruence. apply IH.
Qed.

Lemma growing_last acc l x :
  last (growing acc l) = Some x -> x = grown acc l.
Proof.
  revert acc. induction l as [|piece l IH]; intros acc; [discriminate|].
  cbn [growing]. unfold grown. cbn [foldl].
  destruct l as [|piece' l']; [intros [= <-]; reflexivity|].
  intros Hlast. apply IH. exact Hlast.
Qed.


(** X10. When the request or the stream of the answer fails, [translateText]
    throws, whatever was received before: the message thrown is the message
    of the failure, or "Translation failed" when the failure has none, so it
    is never empty; the failure is written to the console after the calls
    of [onProgress] for what was received. *)
Theorem translateText_failure (text : string) (config : TranslationConfig)
    (o o' : Oracle) (reply : Reply) (reason : string) :
  sendable text ->
  create (completion_request text config) o = (reply, o') ->
  failure reply = Some reason ->
  translateText text config (Some record_partial) o
  = (Throw (if Js.truthy reason then reason else "Translation failed"),
     RemoteCall (completion_request text config)
       :: (Partial <$> growing "" (contents (chunks reply)))
       ++ [ConsoleError TranslationError reason],
     o')
  /\ (if Js.truthy reason then reason else "Translation failed") <> "".
Proof.
  intros Hsend Hcreate Hfail. unfold translateText, sendable in *.
  rewrite blank_guard, Hsend. split.
  - rewrite run_bind. unfold remote. rewrite Hcreate.
    cbn [value_of trace_of oracle_of fst snd].
    rewrite run_bind, consume_stream_run, Hfail.
    cbn [value_of trace_of oracle_of fst snd]. rewrite run_bind.
    cbn. reflexivity.
  - destruct reason; cbn; discriminate.
Qed.

End ClientProperties.

(** ** The batch translator, further *)

Section BatchProperties.

Context `{Service}.
Variable config : TranslationConfig.

Lemma remote_calls_app t1 t2 :
  remote_calls (t1 ++ t2) = remote_calls t1 ++ remote_calls t2.
Proof. apply omap_app. Qed.

Lemma log_messages_app t1 t2 :
  log_messages (t1 ++ t2) = log_messages t1 ++ log_messages t2.
Proof. apply omap_app. Qed.

Lemma translateText_requests text o :
  remote_calls (trace_of (translateText text config None o))
  = if Js.all_white_space text then [] else [completion_request text config].
Proof.
  unfold translateText. rewrite blank_guard.
  destruct (Js.all_white_space text); [reflexivity|].
  rewrite !trace_bind, remote_trace, consume_stream_silent.
  destruct (failure _); [rewrite trace_bind|]; reflexivity.
Qed.

Lemma translateText_logs_nothing text o :
  log_messages (trace_of (translateText text config None o)) = [].
Proof.
  unfold translateText. destruct (_ || _); [reflexivity|].
  rewrite !trace_bind, remote_trace, consume_stream_silent.
  destruct (failure _); [rewrite trace_bind|]; reflexivity.
Qed.

Lemma call_opt_request_free {A} (f : option (A -> M unit)) x o :
  request_free f -> remote_calls (trace_of (call_opt f x o)) = [].
Proof. intros Hf. destruct f as [g|]; [apply Hf|]; reflexivity. Qed.

Lemma call_opt_log_free {A} (f : option (A -> M unit)) x o :
  log_free f -> log_messages (trace_of (call_opt f x o)) = [].
Proof. intros Hf. destruct f as [g|]; [apply Hf|]; reflexivity. Qed.

Lemma attempt_requests onLog total i text o :
  request_free onLog ->
  remote_calls (trace_of (attempt onLog config total i text o))
  = if Js.all_white_space text then [] else [completion_request text config].
Proof.
  intros Hlog. unfold attempt.
  rewrite !trace_bind, !remote_calls_app, now_trace, translateText_requests.
  rewrite call_opt_request_free by assumption.
  cbn [ret trace_of fst snd]. cbn [remote_calls omap list_omap app].
  apply app_nil_r.
Qed.

Lemma settle_requests onBatchProgress onLog total i text results attempted o :
  request_free onBatchProgress -> request_free onLog ->
  remote_calls
    (trace_of (settle onBatchProgress onLog total i text results attempted o)) = [].
Proof.
  intros Hbp Hlog. destruct attempted as [startTime [translated|reason]]; cbn [settle];
    rewrite !trace_bind, !remote_calls_app, now_trace;
    rewrite ?(call_opt_request_free onLog), ?(call_opt_request_free onBatchProgress)
      by assumption;
    reflexivity.
Qed.

Lemma turn_requests onBatchProgress onLog total i text results o :
  request_free onBatchProgress -> request_free onLog ->
  remote_calls (trace_of (turn config onBatchProgress onLog total i text results o))
  = if Js.all_white_space text then [] else [completion_request text config].
Proof.
  intros Hbp Hlog. unfold turn.
  rewrite trace_bind, remote_calls_app, attempt_requests, settle_requests by assumption.
  apply app_nil_r.
Qed.

Lemma loop_requests onBatchProgress onLog total rest :
  request_free onBatchProgress -> request_free onLog ->
  forall i results o,
    remote_calls
      (trace_of (translateBatch_from config onBatchProgress onLog total i rest results o))
    = (fun text => completion_request text config) <$> filter sendable rest.
Proof.
  intros Hbp Hlog. induction rest as [|text rest IH]; intros i results o; [reflexivity|].
  rewrite loop_cons. cbn zeta. unfold trace_of at 1. cbn [fst snd].
  rewrite remote_calls_app, IH, turn_requests by assumption.
  rewrite filter_cons. case_decide as Hs; unfold sendable in Hs.
  - rewrite Hs. reflexivity.
  - apply not_false_is_true in Hs. rewrite Hs. reflexivity.
Qed.


Lemma attempt_log total i text o :
  log_messages (trace_of (attempt (Some record_log) config total i text o))
  = [(MsgBatchStart (i + 1) total (previewText text), info)].
Proof.
  unfold attempt.
  rewrite !trace_bind, !log_messages_app, now_trace, translateText_logs_nothing.
  reflexivity.
Qed.

Lemma settle_log onBatchProgress total i text results attempted o :
  log_free onBatchProgress ->
  log_messages
    (trace_of (settle onBatchProgress (Some record_log) total i text results attempted o))
  = [ match attempted.2 with
      | Ok _ => (MsgBatchDone (i + 1) total, success)
      | Throw reason => (MsgBatchFailed (i + 1) total reason, error)
      end ].
Proof.
  intros Hbp. destruct attempted as [startTime [translated|reason]]; cbn [settle snd];
    rewrite !trace_bind, !log_messages_app, now_trace;
    [rewrite (call_opt_log_free onBatchProgress) by assumption|]; reflexivity.
Qed.

Lemma turn_log onBatchProgress total i text results o :
  log_free onBatchProgress ->
  log_messages
    (trace_of (turn config onBatchProgress (Some record_log) total i text results o))
  = chunk_log total i text
      (value_of (attempt (Some record_log) config total i text o)).2.
Proof.
  intros Hbp. unfold turn.
  rewrite trace_bind, log_messages_app, attempt_log, settle_log by assumption.
  reflexivity.
Qed.

Lemma run_before_log onBatchProgress texts o i :
  log_free onBatchProgress ->
  i <= length texts ->
  log_messages (trace_of (run_before config onBatchProgress (Some record_log) texts o i))
  = seq 0 i ≫= fun k =>
      match texts !! k, outcome_at config onBatchProgress (Some record_log) texts o k with
      | Some text, Some outcome => chunk_log (length texts) k text outcome
      | _, _ => []
      end.
Proof.
  intros Hbp. induction i as [|i IH]; intros Hi; [reflexivity|].
  destruct (lookup_lt_is_Some_2 texts i) as [text Htext]; [lia|].
  rewrite (run_before_succ _ _ _ texts o i text Htext). cbn zeta.
  unfold trace_of at 1. cbn [fst snd].
  rewrite log_messages_app, IH by lia.
  rewrite seq_S, bind_app. f_equal.
  change (0 + i) with i. cbn [mbind list_bind]. rewrite app_nil_r.
  rewrite Htext, (outcome_at_lookup _ _ _ texts o i text Htext).
  apply turn_log, Hbp.
Qed.



End BatchProperties.

Section PreviewProperties.

Lemma length_append (a b : string) :
  String.length (a +:+ b) = String.length a + String.length b.
Proof.
  induction a as [|c a IH]; [reflexivity|].
  change (String c a +:+ b) with (String c (a +:+ b)). cbn. rewrite IH. reflexivity.
Qed.

Lemma length_map_chars f s : String.length (Js.map_chars f s) = String.length s.
Proof. induction s as [|c s IH]; [reflexivity|]. cbn. rewrite IH. reflexivity. Qed.

Lemma length_substring0 n : forall s,
  String.length (Js.substring0 n s) = Nat.min n (String.length s).
Proof.
  unfold Js.substring0. induction n as [|n IH]; intros [|c s]; cbn; try reflexivity.
  rewrite IH. reflexivity.
Qed.

Lemma substring0_all n : forall s, String.length s <= n -> Js.substring0 n s = s.
Proof.
  unfold Js.substring0. induction n as [|n IH]; intros [|c s] Hs; cbn in *;
    try reflexivity; [lia|].
  rewrite IH by lia. reflexivity.
Qed.

Lemma contains_char_append c (a b : string) :
  contains_char c (a +:+ b) = contains_char c a || contains_char c b.
Proof.
  induction a as [|c' a IH]; [reflexivity|].
  change (String c' a +:+ b) with (String c' (a +:+ b)). cbn. rewrite IH.
  apply orb_assoc.
Qed.

Lemma newlines_to_spaces_clean s :
  contains_char Js.newline (Js.newlines_to_spaces s) = false.
Proof.
  induction s as [|c s IH]; [reflexivity|].
  cbn. fold (Js.newlines_to_spaces s). rewrite IH, orb_false_r.
  destruct (Ascii.eqb c Js.newline) eqn:Hc; [reflexivity | exact Hc].
Qed.

Lemma newlines_to_spaces_same s :
  contains_char Js.newline s = false -> Js.newlines_to_spaces s = s.
Proof.
  induction s as [|c s IH]; [reflexivity|].
  cbn. intros [Hc Hs]%orb_false_iff. fold (Js.newlines_to_spaces s).
  rewrite Hc, IH by assumption. reflexivity.
Qed.

(** X14. The preview of a chunk in the log is one short line: it has at
    most 33 characters and no newline. A text of at most 30 characters
    that has no newline is its own preview, and a longer text is cut to its
    first 30 characters, newlines turned into spaces, followed by three
    dots. *)
Theorem previewText_is_one_short_line (text : string) :
  String.length (previewText text) <= 33
  /\ contains_char Js.newline (previewText text) = false
  /\ (String.length text <= 30 ->
      contains_char Js.newline text = false ->
      previewText text = text)
  /\ (30 < String.length text ->
      previewText text = Js.newlines_to_spaces (Js.substring0 30 text) +:+ "..."
      /\ String.length (previewText text) = 33).
Proof.
  unfold previewText. repeat split.
  - unfold Js.newlines_to_spaces.
    rewrite length_append, length_map_chars, length_substring0.
    destruct (30 <? String.length text);
      [change (String.length "...") with 3 | change (String.length "") with 0]; lia.
  - rewrite contains_char_append, newlines_to_spaces_clean.
    destruct (30 <? String.length text); reflexivity.
  - intros Hlen Hclean.
    rewrite (proj2 (Nat.ltb_ge _ _) Hlen), substring0_all, newlines_to_spaces_same
      by assumption.
    apply append_empty_r.
  - apply Nat.ltb_lt in H. rewrite H. reflexivity.
  - apply Nat.ltb_lt in H as Hlt. rewrite Hlt. unfold Js.newlines_to_spaces.
    rewrite length_append, length_map_chars, length_substring0.
    change (String.length "...") with 3. lia.
Qed.

End PreviewProperties.

(** ** The DOCX pipeline and the plain-text pipeline *)

Section DocxProperties.

Context `{Service} `{Browser}.

Lemma translatable_sendable doc node :
  translatable doc node = true -> sendable (textContent doc node).
Proof.
  unfold translatable, sendable. intros Ht.
  destruct (Js.all_white_space (textContent doc node)) eqn:Hw; [|reflexivity].
  rewrite (trim_white _ Hw) in Ht. discriminate.
Qed.

Lemma filter_Forall_id {A} (P : A -> Prop) `{forall x, Decision (P x)} (l : list A) :
  Forall P l -> filter P l = l.
Proof.
  induction 1 as [|x l Hx Hl IH]; [reflexivity|].
  rewrite filter_cons, decide_True, IH by assumption. reflexivity.
Qed.

Lemma marked_texts_sendable doc :
  filter sendable (textContent doc <$> marked_visits doc)
  = textContent doc <$> marked_visits doc.
Proof.
  apply filter_Forall_id, Forall_fmap, Forall_forall.
  intros node [Hnode _]%list_elem_of_filter. apply translatable_sendable, Hnode.
Qed.

Lemma percent_callback_request_free (onProgress : Z -> M unit) :
  request_free (Some onProgress) -> request_free (Some (percent_callback onProgress)).
Proof.
  intros Hp g [completed total] o [= <-]. unfold percent_callback.
  apply (Hp onProgress). reflexivity.
Qed.


(** X16. [translateDocx] changes no part of the archive other than
    word/document.xml: when this part is there and not empty, the call
    returns an archive with the same part names, every other part as it
    was. *)
Theorem translateDocx_touches_only_document_part (archive : gmap string string)
    (config : TranslationConfig) (onProgress : Z -> M unit)
    (onLog : option LogCallback) (o : Oracle) (docXml : string) :
  archive !! document_xml = Some docXml ->
  docXml <> "" ->
  exists out,
    value_of (translateDocx archive config onProgress onLog o) = Ok (ZipBlob out)
    /\ dom out = dom archive
    /\ is_Some (out !! document_xml)
    /\ forall name, name <> document_xml -> out !! name = archive !! name.
Proof.
  intros Hpart Hne.
  destruct (translateDocx_value archive config onProgress onLog o docXml Hpart Hne)
    as [o' Hvalue].
  cbn zeta in Hvalue. rewrite Hvalue.
  destruct (length (marked_visits (parseFromString docXml)) =? 0).
  - exists archive. repeat split; eauto.
  - eexists. split; [reflexivity|]. split; [|split].
    + apply dom_insert_lookup_L. eauto.
    + rewrite lookup_insert_eq. eauto.
    + intros name Hname. apply lookup_insert_ne. congruence.
Qed.

(** X17. [translateDocx] does no translation work in two cases, and
    sends nothing to the service. Without the part word/document.xml, or
    with an empty one, it throws after its first log entry and nothing is
    parsed. With a document in which no [<w:t>] node has text other than
    white space, it returns the archive as it came, not parsed and
    serialized again, after three log entries, the last one a warning. *)
Theorem translateDocx_without_work (archive : gmap string string)
    (config : TranslationConfig) (onProgress : Z -> M unit) (o : Oracle) :
  (archive !! document_xml = None \/ archive !! document_xml = Some "" ->
   translateDocx archive config onProgress (Some record_log) o
   = (Throw "word/document.xml not found", [Log MsgDocxStart info None], o))
  /\ (forall docXml,
        archive !! document_xml = Some docXml ->
        docXml <> "" ->
        marked_visits (parseFromString docXml) = [] ->
        translateDocx archive config onProgress (Some record_log) o
        = (Ok (ZipBlob archive),
           [ Log MsgDocxStart info None;
             Log (MsgDocxParsed 0) info None;
             Log MsgDocxNothing warning None ],
           o)).
Proof.
  split.
  - intros [Hpart|Hpart]; unfold translateDocx; rewrite Hpart; reflexivity.
  - intros docXml Hpart Hne Hnodes. unfold translateDocx. rewrite Hpart.
    destruct docXml as [|c docXml]; [congruence|].
    change (default "" (Some (String c docXml))) with (String c docXml).
    rewrite extract_spec, Hnodes. reflexivity.
Qed.

End DocxProperties.

Section WriteBackProperties.

Lemma is_wp_shape n : is_wp (shape n) = is_wp n.
Proof. destruct n; reflexivity. Qed.

Lemma document_elements_shape sel doc :
  (forall n, sel (shape n) = sel n) ->
  document_elements sel (shape doc) = document_elements sel doc.
Proof.
  intros Hsel. unfold document_elements.
  rewrite Hsel, (descendants_shape sel Hsel). reflexivity.
Qed.

Lemma visit_order_same_shape doc doc' :
  shape doc = shape doc' -> visit_order doc = visit_order doc'.
Proof.
  intros Hs. unfold visit_order.
  rewrite <- (document_elements_shape is_wp doc is_wp_shape), Hs,
    (document_elements_shape is_wp doc' is_wp_shape).
  induction (document_elements is_wp doc') as [|p ps IH]; [reflexivity|].
  rewrite !bind_cons, IH, (elements_under_same_shape is_wt is_wt_shape doc doc' p Hs).
  reflexivity.
Qed.

(** X18. The write-back pass of [translateDocx] changes texts of marked
    [<w:t>] nodes and nothing else, whatever the translations are: the
    document keeps its tree (so its paragraphs and the order of the
    visits), every node that is not marked keeps its text, and so does a
    marked node when the list of translations is too short to reach any of
    its visits. *)
Theorem write_back_changes_only_marked_texts (doc : xml) (ts : list string) :
  let paragraphs := document_elements is_wp doc in
  let nodes := marked_visits doc in
  let final := (write_back (extract doc paragraphs).1 ts doc paragraphs).1 in
  shape final = shape doc
  /\ document_elements is_wp final = paragraphs
  /\ visit_order final = visit_order doc
  /\ (forall node, node ∉ nodes -> textContent final node = textContent doc node)
  /\ (forall node,
        (forall j, nodes !! j = Some node -> length ts <= j) ->
        textContent final node = textContent doc node).
Proof.
  cbn zeta. rewrite extract_spec. cbn [fst]. rewrite write_back_spec. cbn [fst].
  assert (Hshape : shape (foldl assign doc (zip (marked_visits doc) ts)) = shape doc)
    by apply shape_assigns.
  assert (Hshort : forall node,
            (forall j, marked_visits doc !! j = Some node -> length ts <= j) ->
            textContent (foldl assign doc (zip (marked_visits doc) ts)) node
            = textContent doc node).
  { intros node Hnode. apply assigns_keep_text.
    intros [v s] Ha Heq. cbn in Heq. subst v. exfalso.
    apply list_elem_of_lookup_1 in Ha as [j Hj].
    apply lookup_zip_with_Some in Hj as (v & s' & [= <- <-] & Hv & Hs').
    apply lookup_lt_Some in Hs'. specialize (Hnode j Hv). lia. }
  split; [exact Hshape|]. split; [|split; [|split]].
  - rewrite <- (document_elements_shape is_wp _ is_wp_shape), Hshape.
    apply document_elements_shape, is_wp_shape.
  - apply visit_order_same_shape, Hshape.
  - intros node Hnode. apply Hshort. intros j Hj.
    destruct Hnode. eapply list_elem_of_lookup_2, Hj.
  - exact Hshort.
Qed.

Lemma set_textContent_same p : forall n t,
  node_at n p = Some (WT t) -> set_textContent n p t = n.
Proof.
  induction p as [|i p IH]; intros n t Hn.
  - cbn in Hn. injection Hn as ->. reflexivity.
  - cbn [node_at] in Hn.
    destruct (children_of n !! i) as [k|] eqn:Hk; [|discriminate].
    specialize (IH k t Hn).
    destruct n as [ks|t'|ks]; cbn [children_of] in Hk;
      [| rewrite lookup_nil in Hk; discriminate |];
      cbn [set_textContent]; rewrite Hk, IH, list_insert_id by exact Hk; reflexivity.
Qed.

Lemma assign_same doc node :
  (exists t, node_at doc node = Some (WT t)) ->
  assign doc (node, textContent doc node) = doc.
Proof.
  intros [t Ht]. unfold assign. cbn [fst snd].
  destruct (Js.truthy (textContent doc node)); [|reflexivity].
  unfold textContent. rewrite Ht. apply set_textContent_same, Ht.
Qed.

Lemma assigns_same doc (l : list path) :
  (forall v, v ∈ l -> exists t, node_at doc v = Some (WT t)) ->
  foldl assign doc (zip l (textContent doc <$> l)) = doc.
Proof.
  induction l as [|v l IH]; intros Hl; [reflexivity|].
  cbn [fmap list_fmap zip zip_with foldl].
  rewrite assign_same by (apply Hl, elem_of_cons; auto).
  apply IH. intros u Hu. apply Hl, elem_of_cons. auto.
Qed.

(** X19. The two passes of [translateDocx] are inverse to each other on
    the texts: writing back the very texts that the first pass extracted
    gives the document it started from, with the index at the number of
    marked nodes. *)
Theorem write_back_of_extracted_texts (doc : xml) :
  let paragraphs := document_elements is_wp doc in
  let pass1 := extract doc paragraphs in
  write_back pass1.1 (TextItem.text <$> pass1.2) doc paragraphs
  = (doc, length (marked_visits doc)).
Proof.
  cbn zeta. rewrite extract_spec. cbn [fst snd].
  rewrite write_back_spec, <- list_fmap_compose.
  change (TextItem.text ∘ item_of doc) with (textContent doc).
  rewrite assigns_same by (intros v Hv; apply marked_visit_is_wt, Hv).
  reflexivity.
Qed.

End WriteBackProperties.

Section RefusedProperties.

Context `{Service} `{Browser}.

(** Every request is refused, in whatever state the service is. *)
Hypothesis refused : forall request o, failure (create request o).1 <> None.

Lemma remote_value request o : value_of (remote request o) = (create request o).1.
Proof. unfold remote, value_of. destruct (create request o). reflexivity. Qed.

Lemma refused_translateText text config o :
  chunk_result text (value_of (translateText text config None o)) = text.
Proof.
  unfold translateText. destruct (_ || _); [reflexivity|].
  rewrite !value_bind, remote_value.
  pose proof (refused (completion_request text config) o) as Hfail.
  destruct (failure (create (completion_request text config) o).1); [|congruence].
  rewrite value_bind. reflexivity.
Qed.

Lemma refused_loop config onBatchProgress onLog total rest : forall i results o,
  value_of (translateBatch_from config onBatchProgress onLog total i rest results o)
  = results ++ rest.
Proof.
  induction rest as [|text rest IH]; intros i results o.
  - cbn. rewrite app_nil_r. reflexivity.
  - rewrite loop_cons. cbn zeta. unfold value_of at 1. cbn [fst].
    fold (value_of (translateBatch_from config onBatchProgress onLog total (S i) rest
      (value_of (turn config onBatchProgress onLog total i text results o))
      (oracle_of (turn config onBatchProgress onLog total i text results o)))).
    rewrite IH, turn_value.
    destruct (attempt_outcome onLog config total i text o) as [o' ->].
    rewrite refused_translateText, <- app_assoc. reflexivity.
Qed.


End RefusedProperties.

Section TextPipelineProperties.

Context `{Service} `{Browser}.



End TextPipelineProperties.

(** ** The parser and the page *)

Section ExtensionLemmas.

Lemma split_char_not_nil sep s : Js.split_char sep s <> [].
Proof.
  destruct s as [|c s]; cbn; [discriminate|].
  destruct (Ascii.eqb c sep); [discriminate|].
  destruct (Js.split_char sep s); discriminate.
Qed.

Lemma split_char_whole sep s :
  contains_char sep s = false -> Js.split_char sep s = [s].
Proof.
  induction s as [|c s IH]; [reflexivity|].
  cbn. intros [Hc Hs]%orb_false_iff. rewrite Hc, IH by assumption. reflexivity.
Qed.

Lemma split_char_app sep a b :
  Js.split_char sep (a +:+ String sep b) = Js.split_char sep a ++ Js.split_char sep b.
Proof.
  induction a as [|c a IH].
  - change ("" +:+ String sep b) with (String sep b). cbn.
    rewrite Ascii.eqb_refl. reflexivity.
  - rewrite append_cons. cbn [Js.split_char]. rewrite IH.
    destruct (Ascii.eqb c sep); [reflexivity|].
    pose proof (split_char_not_nil sep a) as Ha.
    destruct (Js.split_char sep a); [congruence | reflexivity].
Qed.

Lemma pop_split_char sep stem ext :
  contains_char sep ext = false ->
  Js.pop (Js.split_char sep (stem +:+ String sep ext)) = Some ext.
Proof.
  intros Hext. unfold Js.pop.
  rewrite split_char_app, last_app, (split_char_whole sep ext Hext). reflexivity.
Qed.

Lemma lower_char_dot c : Ascii.eqb (Js.lower_char c) "." = Ascii.eqb c ".".
Proof. destruct c as [[] [] [] [] [] [] [] []]; reflexivity. Qed.

Lemma split_char_lower s :
  Js.split_char "." (Js.toLowerCase s) = Js.toLowerCase <$> Js.split_char "." s.
Proof.
  unfold Js.toLowerCase. induction s as [|c s IH]; [reflexivity|].
  cbn [Js.map_chars Js.split_char]. rewrite lower_char_dot, IH.
  destruct (Ascii.eqb c "."); [reflexivity|].
  pose proof (split_char_not_nil "." s) as Hs.
  destruct (Js.split_char "." s); [congruence | reflexivity].
Qed.

Lemma extension_lower filename :
  extension filename = Js.pop (Js.split_char "." (Js.toLowerCase filename)).
Proof.
  unfold extension, Js.pop. rewrite split_char_lower.
  symmetry. apply fmap_last.
Qed.

Lemma getFileType_extension filename :
  getFileType filename
  = match extension filename with
    | Some ext => type_of_extension ext
    | None => txt
    end.
Proof.
  unfold getFileType. fold (extension filename).
  destruct (extension filename) as [ext|]; [|reflexivity].
  unfold type_of_extension.
  repeat (case_bool_decide; simplify_eq; try reflexivity; try congruence).
Qed.

End ExtensionLemmas.

Section ParserProperties.

Context `{Service} `{Browser} `{Libraries}.

(** X23. [getFileType] looks only at the text after the last dot of the
    name, in lower case: a name that ends with a dot and a text [ext]
    without dots has the type of [ext] in lower case, whatever comes
    before, and a name without any dot is its own extension, so that a file
    named docx is taken as a DOCX file. *)
Theorem getFileType_reads_last_extension (stem ext : string) :
  contains_char "." ext = false ->
  extension (stem +:+ "." +:+ ext) = Some (Js.toLowerCase ext)
  /\ getFileType (stem +:+ "." +:+ ext) = type_of_extension (Js.toLowerCase ext)
  /\ getFileType ext = type_of_extension (Js.toLowerCase ext).
Proof.
  intros Hext.
  assert (Hdotted : extension (stem +:+ "." +:+ ext) = Some (Js.toLowerCase ext)).
  { unfold extension. change ("." +:+ ext) with (String "." ext).
    rewrite pop_split_char by exact Hext. reflexivity. }
  assert (Hbare : extension ext = Some (Js.toLowerCase ext)).
  { unfold extension, Js.pop. rewrite split_char_whole by exact Hext. reflexivity. }
  split; [exact Hdotted|].
  rewrite !getFileType_extension, Hdotted, Hbare. split; reflexivity.
Qed.

Lemma parsePdf_pages_spec pdf_pages : forall fullText pages,
  parsePdf_pages pdf_pages fullText pages
  = (fullText +:+ pages_content pdf_pages, pages ++ (page_text <$> pdf_pages)).
Proof.
  induction pdf_pages as [|items rest IH]; intros fullText pages.
  - cbn. rewrite append_empty_r, app_nil_r. reflexivity.
  - cbn [parsePdf_pages pages_content foldr fmap list_fmap]. rewrite IH.
    fold (page_text items). rewrite !append_assoc, <- app_assoc. reflexivity.
Qed.


Lemma parseDocx_ok buffer parsed :
  parseDocx buffer = Ok parsed ->
  ParsedDocument.type parsed = docx
  /\ exists zip docXml,
       ParsedDocument.structure parsed = Some zip
       /\ zip !! document_xml = Some docXml /\ docXml <> "".
Proof.
  unfold parseDocx. destruct (zip_loadAsync buffer) as [zip|e]; [|discriminate].
  destruct (zip !! document_xml) as [[|c docXml]|] eqn:Hpart; cbn; try discriminate.
  intros [= <-]. split; [reflexivity|]. exists zip, (String c docXml). auto.
Qed.

Lemma parsePdf_ok buffer parsed :
  parsePdf buffer = Ok parsed ->
  ParsedDocument.type parsed = pdf
  /\ exists pages, ParsedDocument.pages parsed = Some pages.
Proof.
  unfold parsePdf. destruct (pdf_getDocument buffer) as [pdf_pages|e]; [|discriminate].
  destruct (parsePdf_pages pdf_pages "" []) as [fullText pages].
  intros [= <-]. eauto.
Qed.

(** What [parseDocument] returns is fit for the dispatch of the page. *)
Lemma parseDocument_ok file parsed :
  parseDocument file = Ok parsed ->
  ParsedDocument.type parsed = getFileType (File.name file)
  /\ match ParsedDocument.type parsed with
     | docx => exists zip docXml,
         ParsedDocument.structure parsed = Some zip
         /\ zip !! document_xml = Some docXml /\ docXml <> ""
     | pdf => exists pages, ParsedDocument.pages parsed = Some pages
     | _ => True
     end.
Proof.
  unfold parseDocument. destruct (getFileType (File.name file)) eqn:Htype.
  - intros [-> Hdocx]%parseDocx_ok. auto.
  - intros [= <-]. cbn. auto.
  - intros [-> Hpdf]%parsePdf_ok. auto.
  - intros [= <-]. cbn. auto.
Qed.

Variable undefined_archive_error : string.

Lemma translatePlainFile_blob content config onProgress onLog o :
  exists text,
    value_of (translatePlainFile content config onProgress onLog o)
    = TextBlob text "text/plain".
Proof. unfold translatePlainFile. rewrite !value_bind. eexists. reflexivity. Qed.

Lemma translateParsed_value parsed config onPercent toast_info addLog o :
  match ParsedDocument.type parsed with
  | docx => exists zip docXml,
      ParsedDocument.structure parsed = Some zip
      /\ zip !! document_xml = Some docXml /\ docXml <> ""
  | pdf => exists pages, ParsedDocument.pages parsed = Some pages
  | _ => True
  end ->
  exists blob,
    value_of (translateParsed undefined_archive_error parsed config onPercent
                toast_info addLog o) = Ok blob
    /\ blob_of_type (ParsedDocument.type parsed) blob.
Proof.
  unfold translateParsed, blob_of_type.
  destruct (ParsedDocument.type parsed).
  - intros (zip & docXml & -> & Hpart & Hne).
    match goal with
    | |- context [translateDocx zip config onPercent ?onLog o] =>
        destruct (translateDocx_value zip config onPercent onLog o docXml Hpart Hne)
          as [o' Hvalue]
    end.
    cbn zeta in Hvalue. rewrite Hvalue.
    destruct (_ =? 0); eauto.
  - intros _. rewrite value_bind.
    match goal with
    | |- context [translateMarkdown ?content config onPercent ?onLog o] =>
        destruct (translateMarkdown_value content config onPercent onLog o) as [o' ->]
    end.
    eauto.
  - intros [pages ->]. rewrite value_bind.
    match goal with
    | |- context [translatePdfPages pages config ?onProgress ?onLog o] =>
        destruct (translatePdfPages_value pages config onProgress onLog o) as [o' ->]
    end.
    eauto.
  - intros _. rewrite !value_bind.
    match goal with
    | |- context [translatePlainFile ?content config onPercent ?onLog ?o1] =>
        destruct (translatePlainFile_blob content config onPercent onLog o1) as [text ->]
    end.
    eauto.
Qed.

Lemma translateParsed_toast_free parsed config onPercent toast_info toast_info' addLog o :
  match ParsedDocument.type parsed with
  | pdf => exists pages, ParsedDocument.pages parsed = Some pages
  | _ => True
  end ->
  translateParsed undefined_archive_error parsed config onPercent toast_info addLog o
  = translateParsed undefined_archive_error parsed config onPercent toast_info' addLog o.
Proof.
  unfold translateParsed. destruct (ParsedDocument.type parsed); try reflexivity.
  intros [pages ->]. reflexivity.
Qed.

(** X25. For one file, the page fails at the parse or not at all: when
    [parseDocument] throws, the page throws the same error, and when it
    returns a document, the translation returns a blob, an archive for a
    DOCX file, Markdown text for a Markdown file and plain text for a PDF or
    a text file. In particular the check of [translateDocx] for the part
    word/document.xml never fires here, since [parseDocx] made it before,
    and a parsed PDF always comes with its pages, so the toast of the PDF
    fallback is never shown: the run is the same whatever this toast
    does. *)
Theorem processFile_fails_only_at_parse (file : File.t) (config : TranslationConfig)
    (updateFileStatus : FileStatus.t * Z -> M unit) (onPercent : Z -> M unit)
    (toast_info : M unit)
    (addLog : (message + page_message) * LogType * option Z -> M unit) (o : Oracle) :
  let run := processFile undefined_archive_error file config updateFileStatus
               onPercent toast_info addLog o in
  match parseDocument file with
  | Throw e => value_of run = Throw e
  | Ok parsed =>
      ParsedDocument.type parsed = getFileType (File.name file)
      /\ exists blob,
           value_of run = Ok blob /\ blob_of_type (ParsedDocument.type parsed) blob
  end
  /\ forall toast_info',
       processFile undefined_archive_error file config updateFileStatus
         onPercent toast_info' addLog o = run.
Proof.
  cbn zeta. unfold processFile.
  destruct (parseDocument file) as [parsed|e] eqn:Hparse.
  - destruct (parseDocument_ok file parsed Hparse) as [Htype Hfit]. split.
    + split; [exact Htype|]. rewrite !value_bind.
      apply translateParsed_value, Hfit.
    + intros toast_info'. unfold bind.
      destruct (updateFileStatus (FileStatus.processing, 0%Z) o) as [[? t1] o1].
      destruct (addLog (inr PageParseStart, info, None) o1) as [[? t2] o2].
      destruct (updateFileStatus (FileStatus.translating, 10%Z) o2) as [[? t3] o3].
      destruct (addLog (inr (PageParsed (ParsedDocument.type parsed)), success, None) o3)
        as [[? t4] o4].
      rewrite (translateParsed_toast_free parsed config onPercent toast_info' toast_info);
        [reflexivity|].
      destruct (ParsedDocument.type parsed); auto.
  - split; [|reflexivity]. rewrite !value_bind. reflexivity.
Qed.

End ParserProperties.

(** ** The upload check *)

Section UploadProperties.

Lemma check_files_spec files : forall toasts validFiles,
  foldl check_file (toasts, validFiles) files
  = (toasts ++ omap rejection files, validFiles ++ filter accepted files).
Proof.
  induction files as [|file files IH]; intros toasts validFiles.
  - cbn. rewrite !app_nil_r. reflexivity.
  - cbn [foldl omap list_omap]. rewrite filter_cons.
    unfold check_file at 2, rejection at 1.
    fold (allowed_name (File.name file)).
    destruct (decide (accepted file)) as [[Hname Hsize]|Hno].
    + rewrite Hname. cbn [negb]. rewrite (proj2 (Nat.ltb_ge _ _) Hsize).
      rewrite IH, <- app_assoc. reflexivity.
    + destruct (allowed_name (File.name file)) eqn:Hname; cbn [negb];
        [destruct (maxSize <? file_size file) eqn:Hsize|];
        [| destruct Hno; split; [exact Hname | apply Nat.ltb_ge, Hsize] |];
        rewrite IH, <- app_assoc; reflexivity.
Qed.

Lemma rejection_or_accepted files :
  length (omap rejection files) + length (filter accepted files) = length files.
Proof.
  induction files as [|file files IH]; [reflexivity|].
  cbn [omap list_omap]. rewrite filter_cons. unfold rejection at 1.
  destruct (decide (accepted file)) as [[Hname Hsize]|Hno].
  - rewrite Hname. cbn [negb]. rewrite (proj2 (Nat.ltb_ge _ _) Hsize).
    cbn [length]. lia.
  - destruct (allowed_name (File.name file)) eqn:Hname; cbn [negb];
      [destruct (maxSize <? file_size file) eqn:Hsize|];
      [| destruct Hno; split; [exact Hname | apply Nat.ltb_ge, Hsize] |];
      cbn [length]; lia.
Qed.

(** X26. [processFiles] sorts the files it is given into the accepted and
    the rejected: it hands on the accepted files (an allowed extension and
    at most 10 MB) in their order, and shows one toast for each other file,
    in order, the toast of the format when the name is not allowed even if
    the file is too large as well. It hands on nothing, not even an empty
    list, when no file is accepted or when there is no list. *)
Theorem processFiles_sorts_the_files (files : list File.t) :
  processFiles (Some files)
  = (omap rejection files,
     if decide (filter accepted files = []) then None
     else Some (filter accepted files))
  /\ length (omap rejection files) + length (filter accepted files) = length files
  /\ processFiles None = ([], None).
Proof.
  split; [|split; [apply rejection_or_accepted | reflexivity]].
  unfold processFiles. rewrite check_files_spec. cbn [app].
  destruct (filter accepted files) as [|file rest]; reflexivity.
Qed.

Lemma endsWith_split s suffix :
  endsWith s suffix = true -> exists stem, s = stem +:+ suffix.
Proof.
  induction s as [|c s IH]; cbn [endsWith].
  - destruct (String.eqb "" suffix) eqn:Heq; [|discriminate].
    apply String.eqb_eq in Heq. subst suffix. exists "". reflexivity.
  - destruct (String.eqb (String c s) suffix) eqn:Heq.
    + apply String.eqb_eq in Heq. subst suffix. exists "". reflexivity.
    + intros [stem ->]%IH. exists (String c stem). reflexivity.
Qed.

Lemma allowed_extension name ext :
  contains_char "." ext = false ->
  endsWith (Js.toLowerCase name) (String "." ext) = true ->
  extension name = Some ext.
Proof.
  intros Hext [stem Hstem]%endsWith_split.
  rewrite extension_lower, Hstem. apply pop_split_char, Hext.
Qed.

(** X27. The upload check and the parser agree on the files that are let
    in: a name that [processFiles] allows has one of the extensions pdf,
    docx, md and txt after its last dot, in any case of the letters, and
    [getFileType] gives it the type of this extension. *)
Theorem allowed_upload_has_its_type (name : string) :
  allowed_name name = true ->
  (extension name = Some "pdf" /\ getFileType name = pdf)
  \/ (extension name = Some "docx" /\ getFileType name = docx)
  \/ (extension name = Some "md" /\ getFileType name = md)
  \/ (extension name = Some "txt" /\ getFileType name = txt).
Proof.
  unfold allowed_name, allowedExts. cbn [existsb].
  rewrite !orb_true_iff, getFileType_extension.
  intros [Hext|[Hext|[Hext|[Hext|Hnone]]]]; [| | | |discriminate].
  - rewrite (allowed_extension name "pdf" eq_refl Hext).
    left. split; reflexivity.
  - rewrite (allowed_extension name "docx" eq_refl Hext).
    right; left. split; reflexivity.
  - rewrite (allowed_extension name "md" eq_refl Hext).
    right; right; left. split; reflexivity.
  - rewrite (allowed_extension name "txt" eq_refl Hext).
    right; right; right. split; reflexivity.
Qed.

End UploadProperties.

(** ** The settings of the page *)

Section SettingsProperties.

(** X28. Choosing a listed model other than the custom one sets the
    endpoint with it: every request made with the settings of the panel
    after [handleModelChange] goes to the base URL of this model in the
    table, with the id of the model and the key of the panel, whatever the
    base URL was before. *)
Theorem listed_model_sets_endpoint (entry : ModelEntry.t) (panel : SettingsPanel)
    (text : string) :
  entry ∈ MODELS ->
  ModelEntry.id entry <> "custom" ->
  let request :=
    completion_request text
      (processConfig (handleModelChange (ModelEntry.id entry) panel)) in
  req_model request = ModelEntry.id entry
  /\ req_baseURL request = ModelEntry.baseUrl entry
  /\ req_apiKey request = panel_apiKey panel.
Proof.
  unfold MODELS. intros Hentry Hcustom. cbn zeta.
  repeat (apply elem_of_cons in Hentry as [->|Hentry];
          [first [ repeat split; reflexivity | destruct Hcustom; reflexivity ]|]).
  apply elem_of_nil in Hentry. destruct Hentry.
Qed.

(** X29. A request never goes out with an empty base URL or an empty
    model: an empty base URL of the panel gives the OpenAI endpoint, and an
    empty model name (the custom model without a name) gives gpt-4o-mini.
    Choosing the custom model, or an id that is not in the table, leaves the
    base URL of the panel as it was. *)
Theorem request_endpoint_defaults (panel : SettingsPanel) (text : string) :
  let request := completion_request text (processConfig panel) in
  req_baseURL request
  = (if Js.truthy (panel_baseUrl panel) then panel_baseUrl panel
     else "https://api.openai.com/v1")
  /\ req_model request
     = Js.or_else (if bool_decide (panel_model panel = "custom")
                   then panel_customModelName panel else panel_model panel)
         "gpt-4o-mini"
  /\ req_baseURL request <> ""
  /\ req_model request <> ""
  /\ (forall newModel,
        (forall entry, entry ∈ MODELS -> ModelEntry.id entry = newModel ->
                       newModel = "custom") ->
        panel_baseUrl (handleModelChange newModel panel) = panel_baseUrl panel).
Proof.
  cbn zeta. unfold completion_request, processConfig. cbn [req_baseURL req_model baseUrl model].
  split; [|split; [|split; [|split]]].
  - destruct (panel_baseUrl panel); reflexivity.
  - unfold Js.or_default, Js.or_else. reflexivity.
  - destruct (panel_baseUrl panel); discriminate.
  - unfold Js.or_default.
    destruct (if bool_decide (panel_model panel = "custom")
              then panel_customModelName panel else panel_model panel);
      discriminate.
  - intros newModel Hnew. unfold handleModelChange. cbn [panel_baseUrl].
    destruct (List.find _ MODELS) as [entry|] eqn:Hfind; [|reflexivity].
    apply find_some in Hfind as [Hin Hid].
    apply bool_decide_eq_true in Hid.
    rewrite Hid, (Hnew entry) by (try apply list_elem_of_In; assumption).
    reflexivity.
Qed.

End SettingsProperties.

(** ** The name of a download *)

Section DownloadProperties.

Lemma prefix_cons a s1 b s2 :
  String.prefix (String a s1) (String b s2)
  = if ascii_dec a b then String.prefix s1 s2 else false.
Proof. reflexivity. Qed.

Lemma prefix_refl s : String.prefix s s = true.
Proof.
  induction s as [|c s IH]; [reflexivity|].
  cbn. destruct (ascii_dec c c); [exact IH | congruence].
Qed.

Lemma substring_end s : forall m, String.substring (String.length s) m s = "".
Proof.
  induction s as [|c s IH]; intros m; [destruct m; reflexivity|].
  cbn. apply IH.
Qed.

(** A pattern without dots that starts a text followed by a dot starts
    the text itself. *)
Lemma prefix_before_dot e : forall s t,
  contains_char "." e = false ->
  String.prefix e (s +:+ String "." t) = true ->
  String.prefix e s = true.
Proof.
  induction e as [|d e IH]; intros s t He Hp; [destruct s; reflexivity|].
  cbn in He. apply orb_false_iff in He as [Hd He].
  destruct s as [|c s].
  - change ("" +:+ String "." t) with (String "." t) in Hp. cbn in Hp.
    destruct (ascii_dec d ".") as [->|]; [discriminate Hd | discriminate Hp].
  - rewrite append_cons in Hp. cbn in Hp |- *.
    destruct (ascii_dec d c); [|discriminate]. eapply IH; eassumption.
Qed.

Lemma replace_first_at_end ext : forall stem,
  contains_char "." ext = false ->
  includes (String "." ext) stem = false ->
  Js.replace_first (String "." ext) "" (stem +:+ String "." ext) = stem.
Proof.
  intros stem Hext. induction stem as [|c stem IH]; intros Hfree.
  - change ("" +:+ String "." ext) with (String "." ext).
    unfold Js.replace_first. rewrite prefix_refl.
    apply (substring_end (String "." ext)).
  - cbn [includes] in Hfree. apply orb_false_iff in Hfree as [Hhere Hlater].
    rewrite append_cons.
    assert (Hno : String.prefix (String "." ext) (String c (stem +:+ String "." ext))
                  = false).
    { destruct (String.prefix (String "." ext) (String c (stem +:+ String "." ext)))
        eqn:Hp; [|reflexivity].
      rewrite prefix_cons in Hp, Hhere.
      destruct (ascii_dec "." c); [|discriminate].
      rewrite (prefix_before_dot ext stem ext Hext Hp) in Hhere. discriminate. }
    change (Js.replace_first (String "." ext) "" (String c (stem +:+ String "." ext)))
      with (if String.prefix (String "." ext) (String c (stem +:+ String "." ext))
            then "" +:+ String.substring (String.length (String "." ext))
                          (String.length (String c (stem +:+ String "." ext)))
                          (String c (stem +:+ String "." ext))
            else String c (Js.replace_first (String "." ext) ""
                             (stem +:+ String "." ext))).
    rewrite Hno, IH by exact Hlater. reflexivity.
Qed.

(** X30. Away from PDF, [downloadFile] names the download after the file:
    for a file of another type whose name is a stem, a dot and an
    extension without dots, where the stem does not contain the dot and
    the extension, the name of the download is "translated_" followed by
    the name of the file, and the blob saved is the result of the
    translation. *)
Theorem download_name_keeps_the_name (item : FileWithStatus) (blob : Blob)
    (stem ext : string) :
  resultBlob item = Some blob ->
  File.type (file item) <> "application/pdf" ->
  File.name (file item) = stem +:+ "." +:+ ext ->
  contains_char "." ext = false ->
  includes ("." +:+ ext) stem = false ->
  downloadFile item = Some (blob, "translated_" +:+ stem +:+ "." +:+ ext).
Proof.
  intros Hblob Htype Hname Hext Hfree.
  unfold downloadFile, download_name. rewrite Hblob, Hname.
  change ("." +:+ ext) with (String "." ext) in *.
  rewrite pop_split_char by exact Hext. cbn [default].
  rewrite bool_decide_eq_false_2 by exact Htype.
  change ("." +:+ id ext) with (String "." ext).
  rewrite replace_first_at_end by assumption. reflexivity.
Qed.

End DownloadProperties.

(** ** The further properties at concrete inputs *)

Section FurtherInstances.

Import authService.

Lemma silent {S : Service} {A} : @request_free S A None.
Proof. intros g x o Hg. discriminate Hg. Defined.

Lemma unlogged {S : Service} {A} : @log_free S A None.
Proof. intros g x o Hg. discriminate Hg. Defined.

Lemma register_appends_and_logs_in_witness :
  Forall (fun u => User.email u <> "carol@example.com") (getUsers two_users)
  /\ getUsers (register "carol@example.com" "pw" true "u3" 3%Z two_users).2
     = [alice; bob; newUser "carol@example.com" "u3" 3%Z (Some "pw")].
Proof.
  assert (Hfree : Forall (fun u => User.email u <> "carol@example.com")
                    (getUsers two_users)).
  { repeat constructor; discriminate. }
  split; [exact Hfree|].
  apply (proj1 (proj2 (register_appends_and_logs_in
                         "carol@example.com" "pw" true "u3" 3%Z two_users Hfree))).
Defined.

Lemma register_rejects_taken_email_witness :
  alice ∈ getUsers two_users
  /\ register "alice@example.com" "other" true "u3" 3%Z two_users
     = (Rejected EmailTaken, two_users).
Proof.
  assert (Hin : alice ∈ getUsers two_users) by (cbn; constructor).
  split; [exact Hin|].
  apply (register_rejects_taken_email "alice@example.com" "other" true "u3" 3%Z
           two_users alice Hin).
  reflexivity.
Defined.

Lemma login_then_current_user_witness :
  getCurrentUser (login "alice@example.com" "wonder" false two_users).2 = Some alice.
Proof.
  apply (login_then_current_user "alice@example.com" "wonder" false two_users
           (login "alice@example.com" "wonder" false two_users).2 alice);
    reflexivity.
Defined.

Lemma updateSettings_then_current_user_witness :
  getCurrentUser (updateSettings deepseek_settings alice_logged_in).2
  = Some (merge alice deepseek_settings).
Proof.
  apply (proj1 (updateSettings_then_current_user deepseek_settings alice_logged_in
                  (updateSettings deepseek_settings alice_logged_in).2
                  (merge alice deepseek_settings) eq_refl)).
Defined.

Lemma emails_stay_unique_witness :
  NoDup (User.email <$> getUsers two_users)
  /\ NoDup (User.email
              <$> getUsers (register "carol@example.com" "pw" true "u3" 3%Z two_users).2).
Proof.
  assert (Hnodup : NoDup (User.email <$> getUsers two_users)).
  { cbn. repeat constructor; set_solver. }
  split; [exact Hnodup|].
  apply (proj1 (emails_stay_unique two_users Hnodup)).
Defined.


Lemma translateText_failure_witness :
  @translateText scripted_service "hi" sample_config (Some record_partial)
    [refusal "quota"]
  = (Throw "quota",
     [ RemoteCall (completion_request "hi" sample_config);
       ConsoleError TranslationError "quota" ],
     []).
Proof.
  apply (proj1 (translateText_failure (H:=scripted_service)
                  "hi" sample_config [refusal "quota"] [] (refusal "quota") "quota"
                  eq_refl eq_refl eq_refl)).
Defined.





Lemma translateDocx_touches_only_document_part_witness :
  exists out,
    value_of (@translateDocx (stub_service uppercase) sample_browser
                sample_archive sample_config record_percent None 0%Z)
    = Ok (ZipBlob out)
    /\ dom out = dom sample_archive
    /\ is_Some (out !! document_xml)
    /\ forall name, name <> document_xml -> out !! name = sample_archive !! name.
Proof.
  apply (translateDocx_touches_only_document_part
           (H:=stub_service uppercase) (H0:=sample_browser)
           sample_archive sample_config record_percent None 0%Z "<w:document/>");
    [reflexivity | discriminate].
Defined.



Lemma getFileType_reads_last_extension_witness :
  contains_char "." "DOCX" = false
  /\ getFileType ("annual.report" +:+ "." +:+ "DOCX") = docx.
Proof.
  split; [reflexivity|].
  apply (proj1 (proj2 (getFileType_reads_last_extension "annual.report" "DOCX"
                         eq_refl))).
Defined.


Lemma allowed_upload_has_its_type_witness :
  allowed_name "Scan.2024.PDF" = true
  /\ ((extension "Scan.2024.PDF" = Some "pdf" /\ getFileType "Scan.2024.PDF" = pdf)
      \/ (extension "Scan.2024.PDF" = Some "docx" /\ getFileType "Scan.2024.PDF" = docx)
      \/ (extension "Scan.2024.PDF" = Some "md" /\ getFileType "Scan.2024.PDF" = md)
      \/ (extension "Scan.2024.PDF" = Some "txt" /\ getFileType "Scan.2024.PDF" = txt)).
Proof.
  split; [reflexivity|].
  apply (allowed_upload_has_its_type "Scan.2024.PDF" eq_refl).
Defined.

Lemma listed_model_sets_endpoint_witness :
  req_baseURL
    (completion_request "hi"
       (processConfig
          (handleModelChange "deepseek-chat"
             {| panel_apiKey := "sk-test"; panel_targetLang := auto;
                panel_model := "gpt-4o"; panel_baseUrl := "https://api.openai.com/v1";
                panel_customModelName := "gpt-3.5-turbo" |})))
  = "https://api.deepseek.com".
Proof.
  apply (proj1 (proj2 (listed_model_sets_endpoint
           {| ModelEntry.id := "deepseek-chat";
              ModelEntry.name := "DeepSeek V3 (DeepSeek)";
              ModelEntry.baseUrl := "https://api.deepseek.com" |}
           {| panel_apiKey := "sk-test"; panel_targetLang := auto;
              panel_model := "gpt-4o"; panel_baseUrl := "https://api.openai.com/v1";
              panel_customModelName := "gpt-3.5-turbo" |}
           "hi"
           ltac:(unfold MODELS; do 2 right; left)
           ltac:(discriminate)))).
Defined.

Lemma download_name_keeps_the_name_witness :
  downloadFile
    {| file := sample_docx_file; item_id := "2";
       item_status := FileStatus.completed; item_progress := 100%Z;
       resultBlob := Some (ZipBlob sample_archive) |}
  = Some (ZipBlob sample_archive, "translated_report.docx").
Proof.
  apply (download_name_keeps_the_name
           {| file := sample_docx_file; item_id := "2";
              item_status := FileStatus.completed; item_progress := 100%Z;
              resultBlob := Some (ZipBlob sample_archive) |}
           (ZipBlob sample_archive) "report" "docx" eq_refl);
    [discriminate | reflexivity | reflexivity | reflexivity].
Defined.

End FurtherInstances.
